(** * gitlab-repo-mirror: the synchronisation engine of [main.go]

    A shallow embedding of [main.go] and the properties of its per-repository
    decision engine.  The program talks to the outside through a handful of
    library calls ([os.Stat], [exec.Cmd.Run], [filepath.WalkDir],
    [http.Client.Do], ...).  Those calls are the fields of a record
    [Sys]; the program text above them is translated function by function
    into a state monad whose state carries

    - the outside world,
    - the store of the [*Stat] cells that [main] allocates and mutates
      through pointers,
    - the sequence of library calls made so far, each with its result,
    - the lines written through package [log].

    Go's [int] is taken at its 64-bit width and [++] wraps around.  The
    slices [[]*Source] and [[]*Repo] of the source hold pointers to records
    that are never written once decoded, and the decoders are taken to yield
    no nil element: the model holds the records themselves.  [*Stat] cells
    are written through their pointer after the pointer was appended to
    [stats], so they live in a store.  The prefix package [log] puts before
    a line (date and time) is left out of the logged lines. *)

From Stdlib Require Import ZArith List Sorted String Ascii Bool Lia DecimalString.
Import ListNotations.

Set Warnings "-register-all".

Local Open Scope string_scope.
Local Open Scope list_scope.
Local Open Scope Z_scope.

Declare Scope go_scope.
Delimit Scope go_scope with go.
Infix "+++" := String.append (at level 60, right associativity) : go_scope.
Local Open Scope go_scope.

(** ** Machine integers *)

Definition int_max : Z := 2 ^ 63 - 1.
Definition int_min : Z := - 2 ^ 63.

(** Two's complement reduction to 64 bits. *)
Definition wrap64 (z : Z) : Z := (z + 2 ^ 63) mod 2 ^ 64 - 2 ^ 63.

(** [x++] on an [int] or [int64]. *)
Definition incr (x : Z) : Z := wrap64 (x + 1).

(** [%d] of package [fmt]. *)
Definition itoa (z : Z) : string := NilEmpty.string_of_int (Z.to_int z).

(** ** Errors and file information *)

(** An [error] value: its text ([Error()]) and the answers [os.IsNotExist] and
    [os.IsExist] give on it. *)
Record error : Type := mkError {
  Error : string;
  notExist : bool;
  exist : bool
}.

Definition os_IsNotExist (err : error) : bool := notExist err.
Definition os_IsExist (err : error) : bool := exist err.

(** [fs.FileInfo], as far as the program could look at it. *)
Record FileInfo : Type := mkFileInfo {
  Size : Z;
  Mode_IsDir : bool
}.

(** [fs.DirEntry]: [Name()], [IsDir()] and the result of [Info()]. *)
Record DirEntry : Type := mkDirEntry {
  Name : string;
  IsDir : bool;
  Info : FileInfo + error
}.

(** What [filepath.WalkDir] can observe below a path: the entry itself and,
    when it is a directory, what [os.ReadDir] returns for it (the entries
    read, and an error when the read failed or stopped early). *)
Inductive node : Type :=
| Node (d : DirEntry) (dirs : list node) (readErr : option error).

Definition entry (n : node) : DirEntry := match n with Node d _ _ => d end.

(** The root of a walk: [os.Lstat] succeeded and gives a tree, or failed. *)
Definition walk_root : Type := (node + error)%type.

(** ** Data model of [main.go] *)

Record Source : Type := mkSource {
  Domain : string;
  Username : string;
  Token : string;
  Exclude : list string;
  Include : list string
}.

(** [func (s *Source) String() string] *)
Definition Source_String (s : Source) : string :=
  if negb (String.eqb (Username s) "") then Username s +++ "@" +++ Domain s
  else Domain s.

Record Config : Type := mkConfig {
  Sources : list Source;
  Destination : string
}.

Record Repo : Type := mkRepo {
  ID : Z;
  Repo_Name : string;
  NameWithNamespace : string;
  Path : string;
  PathWithNamespace : string;
  CreatedAt : string;
  HTTPURLToRepo : string
}.

Record Stat : Type := mkStat {
  Stat_Source : Source;
  Repos : list Repo;
  Skipped : Z;
  Mirrored : Z;
  Updated : Z;
  Failed : Z;
  FailedMirror : Z;
  FailedUpdate : Z
}.

(** [&Stat{Source: source}] *)
Definition new_Stat (source : Source) : Stat :=
  mkStat source [] 0 0 0 0 0 0.

Definition set_Repos (st : Stat) (v : list Repo) : Stat :=
  mkStat (Stat_Source st) v (Skipped st) (Mirrored st) (Updated st)
         (Failed st) (FailedMirror st) (FailedUpdate st).
Definition set_Skipped (st : Stat) (v : Z) : Stat :=
  mkStat (Stat_Source st) (Repos st) v (Mirrored st) (Updated st)
         (Failed st) (FailedMirror st) (FailedUpdate st).
Definition set_Mirrored (st : Stat) (v : Z) : Stat :=
  mkStat (Stat_Source st) (Repos st) (Skipped st) v (Updated st)
         (Failed st) (FailedMirror st) (FailedUpdate st).
Definition set_Updated (st : Stat) (v : Z) : Stat :=
  mkStat (Stat_Source st) (Repos st) (Skipped st) (Mirrored st) v
         (Failed st) (FailedMirror st) (FailedUpdate st).
Definition set_Failed (st : Stat) (v : Z) : Stat :=
  mkStat (Stat_Source st) (Repos st) (Skipped st) (Mirrored st) (Updated st)
         v (FailedMirror st) (FailedUpdate st).
Definition set_FailedMirror (st : Stat) (v : Z) : Stat :=
  mkStat (Stat_Source st) (Repos st) (Skipped st) (Mirrored st) (Updated st)
         (Failed st) v (FailedUpdate st).
Definition set_FailedUpdate (st : Stat) (v : Z) : Stat :=
  mkStat (Stat_Source st) (Repos st) (Skipped st) (Mirrored st) (Updated st)
         (Failed st) (FailedMirror st) v.

(** ** HTTP *)

Record Request : Type := mkRequest {
  Method : string;
  URL : string;
  Header : list (string * string)
}.

Record Response : Type := mkResponse {
  StatusCode : Z;
  Body : string
}.

(** [req.Header.Add(key, value)] *)
Definition Header_Add (req : Request) (key value : string) : Request :=
  mkRequest (Method req) (URL req) (Header req ++ [(key, value)]).

(** ** The outside world *)

(** The library calls the program makes.  [W] is the state of everything
    outside the process (file system, remote hosts).  Calls that only read
    return a result; calls that may change the world return the new world
    too.  The pure library functions [filepath.Join], [filepath.Match],
    [http.NewRequest] and the JSON decoders are fields as well. *)
Record Sys (W : Type) : Type := mkSys {
  os_ReadFile : string -> W -> string + error;
  os_MkdirAll : string -> Z -> W -> option error * W;
  os_Stat : string -> W -> FileInfo + error;
  os_Lstat_tree : string -> W -> walk_root;
  exec_Run : string -> list string -> W -> option error * W;
  client_Do : Request -> W -> (Response + error) * W;
  http_NewRequest : string -> string -> Request + error;
  json_Unmarshal_Config : string -> Config + error;
  json_Decode_Repos : Response -> list Repo + error;
  filepath_Join : list string -> string;
  filepath_Match : string -> string -> bool * option error
}.

Arguments os_ReadFile {W}.
Arguments os_MkdirAll {W}.
Arguments os_Stat {W}.
Arguments os_Lstat_tree {W}.
Arguments exec_Run {W}.
Arguments client_Do {W}.
Arguments http_NewRequest {W}.
Arguments json_Unmarshal_Config {W}.
Arguments json_Decode_Repos {W}.
Arguments filepath_Join {W}.
Arguments filepath_Match {W}.

(** A library call that was made, with what it returned. *)
Inductive event : Type :=
| EvReadFile (name : string) (r : string + error)
| EvMkdirAll (path : string) (perm : Z) (r : option error)
| EvStat (name : string) (r : FileInfo + error)
| EvWalkDir (root : string) (r : walk_root)
| EvRun (name : string) (args : list string) (r : option error)
| EvDo (req : Request) (r : Response + error).

(** A [*Stat]: the address of a cell of the store. *)
Abbreviation addr := nat (only parsing).

Record state (W : Type) : Type := mkState {
  world : W;
  heap : addr -> Stat;
  next : addr;
  trace : list event;
  out : list string
}.

Arguments mkState {W}.
Arguments world {W}.
Arguments heap {W}.
Arguments next {W}.
Arguments trace {W}.
Arguments out {W}.

(** ** The monad *)

Definition M (W A : Type) : Type := state W -> A * state W.

Definition ret {W A} (a : A) : M W A := fun s => (a, s).

Definition bind {W A B} (m : M W A) (k : A -> M W B) : M W B :=
  fun s => let (a, s1) := m s in k a s1.

Notation "x <- m ;; k" := (bind m (fun x => k))
  (at level 61, m at next level, right associativity) : go_scope.
Notation "m ;; k" := (bind m (fun _ => k))
  (at level 61, right associativity) : go_scope.

(** ** [filepath.WalkDir]

    The walk of package [path/filepath] over what [os.Lstat] and [os.ReadDir]
    report, for a callback with a state of type [S] (the variables the
    closure captures).  The callback receives the path, the entry ([None] for
    Go's nil, which happens only when [os.Lstat] of the root failed) and the
    error of the failed [Lstat] or [ReadDir].  The sentinels [fs.SkipDir] and
    [fs.SkipAll] are left out: the callback of [objects] returns only errors
    it was given by the file system. *)

Section WalkDir.
Context {S : Type}.
Variable join : list string -> string.
Variable fn : string -> option DirEntry -> option error -> S -> S * option error.

Fixpoint walkDir (path : string) (n : node) (st : S) {struct n} : S * option error :=
  match n with
  | Node d dirs readErr =>
    match fn path (Some d) None st with
    | (st1, Some err) => (st1, Some err)
    | (st1, None) =>
      if negb (IsDir d) then (st1, None)
      else
        let descend :=
          fix descend (l : list node) (st : S) {struct l} : S * option error :=
            match l with
            | [] => (st, None)
            | d1 :: l' =>
              match walkDir (join [path; Name (entry d1)]) d1 st with
              | (st', Some err) => (st', Some err)
              | (st', None) => descend l' st'
              end
            end in
        match readErr with
        | Some err =>
          (* second call, to report the ReadDir error *)
          match fn path (Some d) (Some err) st1 with
          | (st2, Some err') => (st2, Some err')
          | (st2, None) => descend dirs st2
          end
        | None => descend dirs st1
        end
    end
  end.

Definition WalkDir (root : string) (r : walk_root) (st : S) : S * option error :=
  match r with
  | inr err => fn root None (Some err) st
  | inl n => walkDir root n st
  end.
End WalkDir.

(** [strings.HasSuffix] *)
Definition HasSuffix (s suffix : string) : bool :=
  (String.length suffix <=? String.length s)%nat &&
  String.eqb (substring (String.length s - String.length suffix)
                        (String.length suffix) s) suffix.

(** The closure that [objects] hands to [filepath.WalkDir]; its state is the
    pair of named results [(largestsize, count)] it captures. *)
Definition objects_fn (path : string) (d : option DirEntry) (err : option error)
           (st : Z * Z) : (Z * Z) * option error :=
  let '(largestsize, count) := st in
  match err with
  | Some err => (st, Some err)
  | None =>
    match d with
    | None => (st, None)
    | Some d =>
      if IsDir d then (st, None)
      else
        let count := incr count in
        if negb (HasSuffix (Name d) ".pack") then ((largestsize, count), None)
        else
          match Info d with
          | inr _err => ((largestsize, count), Some _err)
          | inl fi =>
            if largestsize <=? Size fi then ((Size fi, count), None)
            else ((largestsize, count), None)
          end
    end
  end.

(** ** The program *)

Inductive exit : Type :=
| Returned
| Exited (code : Z).

Section Program.
Context {W : Type} (sys : Sys W).

(** *** Library calls, recorded *)

Definition emit (ev : event) (s : state W) : state W :=
  mkState (world s) (heap s) (next s) (trace s ++ [ev]) (out s).

Definition log_Printf (line : string) : M W unit :=
  fun s => (tt, mkState (world s) (heap s) (next s) (trace s) (out s ++ [line])).

Definition ReadFile (name : string) : M W (string + error) :=
  fun s => let r := os_ReadFile sys name (world s) in
           (r, emit (EvReadFile name r) s).

Definition MkdirAll (path : string) (perm : Z) : M W (option error) :=
  fun s => let (r, w) := os_MkdirAll sys path perm (world s) in
           (r, emit (EvMkdirAll path perm r)
                    (mkState w (heap s) (next s) (trace s) (out s))).

Definition os_Stat_call (name : string) : M W (FileInfo + error) :=
  fun s => let r := os_Stat sys name (world s) in
           (r, emit (EvStat name r) s).

(** [exec.Command(name, args...)] followed by [cmd.Run()]; the [*exec.Cmd]
    every wrapper returns beside the error is dropped by all callers. *)
Definition Cmd_Run (name : string) (args : list string) : M W (option error) :=
  fun s => let (r, w) := exec_Run sys name args (world s) in
           (r, emit (EvRun name args r)
                    (mkState w (heap s) (next s) (trace s) (out s))).

Definition Do (req : Request) : M W (Response + error) :=
  fun s => let (r, w) := client_Do sys req (world s) in
           (r, emit (EvDo req r)
                    (mkState w (heap s) (next s) (trace s) (out s))).

(** *** The store of [Stat] cells *)

Definition new (v : Stat) : M W addr :=
  fun s => (next s,
            mkState (world s)
                    (fun p => if Nat.eqb p (next s) then v else heap s p)
                    (S (next s)) (trace s) (out s)).

Definition load (p : addr) : M W Stat := fun s => (heap s p, s).

Definition store (p : addr) (v : Stat) : M W unit :=
  fun s => (tt, mkState (world s)
                        (fun q => if Nat.eqb q p then v else heap s q)
                        (next s) (trace s) (out s)).

(** *** Filter: [matches] and [skip] *)

Fixpoint matches (s : list string) (e : string) : bool :=
  match s with
  | [] => false
  | v :: s' =>
    if String.eqb v e then true
    else
      let (matched, err) := filepath_Match sys v e in
      if (match err with None => true | Some _ => false end) && matched
      then true
      else matches s' e
  end.

Definition skip (source : Source) (remote : string) : bool :=
  if matches (Exclude source) remote then true
  else if (0 <? Z.of_nat (List.length (Include source))) &&
          negb (matches (Include source) remote) then true
  else false.

(** *** Maintenance operations *)

Definition clone (url local : string) : M W (option error) :=
  Cmd_Run "git" ["clone"; "--mirror"; url; local].

Definition touch (local : string) : M W (option error) :=
  Cmd_Run "touch" [filepath_Join sys [local; "refs"; ".gitkeep"];
                   filepath_Join sys [local; "objects"; ".gitkeep"]].

(** [objects]: the walk below [filepath.Join(local, "objects")] with both
    named results starting at zero; they are returned as they stand, with
    the error, when the walk stops early. *)
Definition objects_walk (root : string) (r : walk_root) : Z * Z * option error :=
  let '((largestsize, count), err) :=
    WalkDir (filepath_Join sys) objects_fn root r (0, 0) in
  (largestsize, count, err).

Definition objects (local : string) : M W (Z * Z * option error) :=
  fun s =>
    let root := filepath_Join sys [local; "objects"] in
    let r := os_Lstat_tree sys root (world s) in
    (objects_walk root r, emit (EvWalkDir root r) s).

Definition repack (local : string) : M W (option error) :=
  Cmd_Run "git" ["-C"; local; "repack"; "--max-pack-size=95m"; "-A"; "-d"].

Definition update (local : string) : M W (option error) :=
  Cmd_Run "git" ["-C"; local; "remote"; "update"].

Definition disablegc (local : string) : M W (option error) :=
  Cmd_Run "git" ["-C"; local; "config"; "--local"; "gc.auto"; "0"].

Definition remove (local : string) : M W (option error) :=
  Cmd_Run "rm" ["-rf"; local].

(** *** Counters: [stat.X++] through the pointer [stat] *)

Definition inc_Skipped (stat : addr) : M W unit :=
  st <- load stat ;; store stat (set_Skipped st (incr (Skipped st))).
Definition inc_Mirrored (stat : addr) : M W unit :=
  st <- load stat ;; store stat (set_Mirrored st (incr (Mirrored st))).
Definition inc_Updated (stat : addr) : M W unit :=
  st <- load stat ;; store stat (set_Updated st (incr (Updated st))).
Definition inc_Failed (stat : addr) : M W unit :=
  st <- load stat ;; store stat (set_Failed st (incr (Failed st))).
Definition inc_FailedMirror (stat : addr) : M W unit :=
  st <- load stat ;; store stat (set_FailedMirror st (incr (FailedMirror st))).
Definition inc_FailedUpdate (stat : addr) : M W unit :=
  st <- load stat ;; store stat (set_FailedUpdate st (incr (FailedUpdate st))).

(** *** The decision engine: the body of the inner loop of [main] *)

(** [main], lines 87-136: [os.Stat] reported that nothing exists at
    [local].  Every [continue] of the source ends the term. *)
Definition mirror_new (remote local : string) (stat : addr) : M W unit :=
  let url := remote in
  log_Printf ("Mirroring [" +++ remote +++ "] -> [" +++ local +++ "]") ;;
  err <- clone url local ;;
  match err with
  | Some err =>
    log_Printf ("Failed mirror [" +++ remote +++ "] -> [" +++ local +++
                "]: clone error:'" +++ Error err +++ "'") ;;
    remove local ;;
    inc_FailedMirror stat
  | None =>
  err <- disablegc local ;;
  match err with
  | Some err =>
    log_Printf ("Failed mirror [" +++ remote +++ "] -> [" +++ local +++
                "]: disablegc error:'" +++ Error err +++ "'") ;;
    remove local ;;
    inc_FailedMirror stat
  | None =>
  err <- touch local ;;
  match err with
  | Some err =>
    log_Printf ("Failed mirror [" +++ remote +++ "] -> [" +++ local +++
                "]: touch error:'" +++ Error err +++ "'") ;;
    remove local ;;
    inc_FailedMirror stat
  | None =>
  r <- objects local ;;
  let '(largestsize, _, err) := r in
  match err with
  | Some err =>
    log_Printf ("Failed mirror [" +++ remote +++ "] -> [" +++ local +++
                "]: objects error:'" +++ Error err +++ "'") ;;
    remove local ;;
    inc_FailedMirror stat
  | None =>
  let finish : M W unit :=
    err <- update local ;;
    match err with
    | Some err =>
      log_Printf ("Failed mirror [" +++ remote +++ "] -> [" +++ local +++
                  "]. update error:'" +++ Error err +++ "'") ;;
      remove local ;;
      inc_FailedMirror stat
    | None =>
      log_Printf ("Successfully mirror [" +++ remote +++ "] -> [" +++
                  local +++ "]") ;;
      inc_Mirrored stat
    end in
  if 95 * 1024 * 1024 <? largestsize then
    log_Printf ("Should repack [" +++ local +++ "]. objects largestsize=" +++
                itoa largestsize) ;;
    err <- repack local ;;
    match err with
    | Some err =>
      log_Printf ("Failed mirror [" +++ remote +++ "] -> [" +++ local +++
                  "]: repack error:'" +++ Error err +++ "'") ;;
      remove local ;;
      inc_FailedMirror stat
    | None =>
      log_Printf ("Repack [" +++ local +++ "] finished.") ;;
      finish
    end
  else finish
  end end end end.

(** [main], lines 138-152: [os.Stat] succeeded. *)
Definition mirror_existing (remote local : string) (stat : addr) : M W unit :=
  log_Printf ("Updating [" +++ remote +++ "] -> [" +++ local +++ "]") ;;
  err <- disablegc local ;;
  match err with
  | Some err =>
    log_Printf ("Failed update [" +++ remote +++ "] -> [" +++ local +++
                "]: disablegc error:'" +++ Error err +++ "'") ;;
    inc_FailedUpdate stat
  | None =>
    err <- update local ;;
    match err with
    | Some err =>
      log_Printf ("Failed update [" +++ remote +++ "] -> [" +++ local +++
                  "] error: " +++ Error err) ;;
      inc_FailedUpdate stat
    | None =>
      log_Printf ("Successfully update [" +++ remote +++ "] -> [" +++
                  local +++ "]") ;;
      inc_Updated stat
    end
  end.

(** [fmt.Sprintf("%s.git", filepath.Join(config.Destination, source.Domain,
    repo.PathWithNamespace))] *)
Definition local_path (config : Config) (source : Source) (repo : Repo) : string :=
  filepath_Join sys [Destination config; Domain source; PathWithNamespace repo]
  +++ ".git".

(** [main], lines 74-153: one iteration of [for _, repo := range repos]. *)
Definition process_repo (config : Config) (source : Source) (stat : addr)
           (repo : Repo) : M W unit :=
  let remote := HTTPURLToRepo repo in
  let local := local_path config source repo in
  if skip source remote then inc_Skipped stat
  else
    r <- os_Stat_call local ;;
    match r with
    | inr err =>
      if negb (os_IsNotExist err) then
        log_Printf ("Failed to stat [" +++ local +++ "]: " +++ Error err) ;;
        inc_Failed stat
      else mirror_new remote local stat
    | inl _ => mirror_existing remote local stat
    end.

(** [main], lines 73-154. *)
Fixpoint process_repos (config : Config) (source : Source) (stat : addr)
         (repos : list Repo) : M W unit :=
  match repos with
  | [] => ret tt
  | repo :: repos' =>
    process_repo config source stat repo ;;
    process_repos config source stat repos'
  end.

(** *** Listing *)

(** The [fmt.Sprintf] of [getRepoPage]. *)
Definition page_url (source : Source) (page perPage : Z) : string :=
  "https://" +++ Domain source +++ "/api/v4/projects?simple=true&page="
  +++ itoa page +++ "&per_page=" +++ itoa perPage +++ "&order_by=id&sort=asc".

Definition getRepoPage (source : Source) (page perPage : Z)
  : M W (list Repo * option error) :=
  let url := page_url source page perPage in
  match http_NewRequest sys "GET" url with
  | inr err => ret ([], Some err)
  | inl req =>
    let req := if negb (String.eqb (Token source) "")
               then Header_Add req "Authorization" ("Bearer " +++ Token source)
               else req in
    r <- Do req ;;
    match r with
    | inr err => ret ([], Some err)
    | inl resp =>
      match json_Decode_Repos sys resp with
      | inr err => ret ([], Some err)
      | inl repos => ret (repos, None)
      end
    end
  end.

(** The [for { ... }] of [getRepo].  The loop of the source has no bound of
    its own; [fuel] bounds the number of pages and [None] is the run that
    has not finished within it. *)
Fixpoint getRepo_loop (fuel : nat) (source : Source) (repos : list Repo)
         (page perPage : Z) : M W (option (list Repo * option error)) :=
  match fuel with
  | O => ret None
  | S fuel' =>
    r <- getRepoPage source page perPage ;;
    let '(pageRepos, err) := r in
    match err with
    | Some err => ret (Some ([], Some err))
    | None =>
      if Nat.eqb (List.length pageRepos) 0 then ret (Some (repos, None))
      else getRepo_loop fuel' source (repos ++ pageRepos) (incr page) perPage
    end
  end.

Definition getRepo (fuel : nat) (source : Source)
  : M W (option (list Repo * option error)) :=
  getRepo_loop fuel source [] 1 50.

(** *** The batch *)

(** [main], lines 62-154: one iteration of
    [for _, source := range config.Sources]; the result is the slice
    [stats] after it, or [None] when the listing has not finished. *)
Definition process_source (fuel : nat) (config : Config) (stats : list addr)
           (source : Source) : M W (option (list addr)) :=
  stat <- new (new_Stat source) ;;
  let stats := stats ++ [stat] in
  r <- getRepo fuel source ;;
  match r with
  | None => ret None
  | Some (_, Some err) =>
    log_Printf ("Failed to get source [" +++ Source_String source +++
                "] repos. error:'" +++ Error err +++ "'") ;;
    ret (Some stats)
  | Some (repos, None) =>
    st <- load stat ;;
    store stat (set_Repos st repos) ;;
    log_Printf ("Found " +++ itoa (Z.of_nat (List.length repos)) +++
                " repos for source [" +++ Source_String source +++ "]") ;;
    process_repos config source stat repos ;;
    ret (Some stats)
  end.

(** [main], lines 61-155. *)
Fixpoint process_sources (fuel : nat) (config : Config) (stats : list addr)
         (sources : list Source) : M W (option (list addr)) :=
  match sources with
  | [] => ret (Some stats)
  | source :: sources' =>
    r <- process_source fuel config stats source ;;
    match r with
    | None => ret None
    | Some stats => process_sources fuel config stats sources'
    end
  end.

(** The line [main] logs for one [Stat] at the end. *)
Definition report_line (st : Stat) : string :=
  "Source [" +++ Source_String (Stat_Source st) +++
  "] stats: repos:" +++ itoa (Z.of_nat (List.length (Repos st))) +++
  " skipped:" +++ itoa (Skipped st) +++
  " mirrored:" +++ itoa (Mirrored st) +++
  " updated:" +++ itoa (Updated st) +++
  " failed:" +++ itoa (Failed st) +++
  " failed_mirror:" +++ itoa (FailedMirror st) +++
  " failed_update:" +++ itoa (FailedUpdate st).

(** [main], lines 156-158. *)
Fixpoint report (stats : list addr) : M W unit :=
  match stats with
  | [] => ret tt
  | stat :: stats' =>
    st <- load stat ;;
    log_Printf (report_line st) ;;
    report stats'
  end.

(** [main], lines 60-158: what runs once the configuration is loaded. *)
Definition batch (fuel : nat) (config : Config) : M W (option exit) :=
  r <- process_sources fuel config [] (Sources config) ;;
  match r with
  | None => ret None
  | Some stats => report stats ;; ret (Some Returned)
  end.

Definition loadConfig : M W (Config + error) :=
  r <- ReadFile "config.json" ;;
  match r with
  | inr err => ret (inr err)
  | inl b =>
    match json_Unmarshal_Config sys b with
    | inr err => ret (inr err)
    | inl config => ret (inl config)
    end
  end.

(** [log.Fatal]: print, then [os.Exit(1)]. *)
Definition log_Fatal (line : string) : M W (option exit) :=
  log_Printf line ;; ret (Some (Exited 1)).

Definition main (fuel : nat) : M W (option exit) :=
  r <- loadConfig ;;
  match r with
  | inr err => log_Fatal ("Failed to load config: " +++ Error err)
  | inl config =>
    err <- MkdirAll (Destination config) 493 ;;
    match err with
    | Some err =>
      if negb (os_IsExist err)
      then log_Fatal ("Failed to create destination directory: " +++ Error err)
      else batch fuel config
    | None => batch fuel config
    end
  end.
End Program.

(** * Vocabulary of the properties *)

(** ** Outcomes and counters *)

(** The six ways the processing of one repository can end, one per counter of
    [Stat]. *)
Inductive outcome : Type :=
| OSkipped | OMirrored | OUpdated | OFailed | OFailedMirror | OFailedUpdate.

Definition counter (o : outcome) (st : Stat) : Z :=
  match o with
  | OSkipped => Skipped st
  | OMirrored => Mirrored st
  | OUpdated => Updated st
  | OFailed => Failed st
  | OFailedMirror => FailedMirror st
  | OFailedUpdate => FailedUpdate st
  end.

(** The [Stat] after [++] on the counter of outcome [o]. *)
Definition bump (o : outcome) (st : Stat) : Stat :=
  match o with
  | OSkipped => set_Skipped st (incr (Skipped st))
  | OMirrored => set_Mirrored st (incr (Mirrored st))
  | OUpdated => set_Updated st (incr (Updated st))
  | OFailed => set_Failed st (incr (Failed st))
  | OFailedMirror => set_FailedMirror st (incr (FailedMirror st))
  | OFailedUpdate => set_FailedUpdate st (incr (FailedUpdate st))
  end.

(** The sum of the six counters. *)
Definition tally (st : Stat) : Z :=
  Skipped st + Mirrored st + Updated st + Failed st + FailedMirror st +
  FailedUpdate st.

Definition counters_nonneg (st : Stat) : Prop :=
  0 <= Skipped st /\ 0 <= Mirrored st /\ 0 <= Updated st /\ 0 <= Failed st /\
  0 <= FailedMirror st /\ 0 <= FailedUpdate st.

(** ** The filter *)

(** A pattern of the list is the URL itself, or [filepath.Match] says without
    error that it matches. *)
Definition pattern_hit {W} (sys : Sys W) (patterns : list string) (e : string)
  : Prop :=
  exists v, In v patterns /\
            (v = e \/ filepath_Match sys v e = (true, None)).

(** ** What a walk of an object store sees *)

Definition is_pack (d : DirEntry) : bool := HasSuffix (Name d) ".pack".

(** The entries that are not directories, in the order of the walk. *)
Fixpoint files (n : node) : list DirEntry :=
  match n with
  | Node d dirs _ => if IsDir d then flat_map files dirs else [d]
  end.

Definition pack_size (d : DirEntry) : Z :=
  match Info d with
  | inl fi => Size fi
  | inr _ => 0
  end.

(** The sizes of the files whose name ends in [.pack]. *)
Definition pack_sizes (n : node) : list Z :=
  map pack_size (filter is_pack (files n)).

(** The first error a walk runs into: a directory that cannot be read, or a
    [.pack] file whose [Info()] fails. *)
Fixpoint first_error (n : node) : option error :=
  match n with
  | Node d dirs readErr =>
    if IsDir d then
      match readErr with
      | Some err => Some err
      | None =>
        (fix scan (l : list node) : option error :=
           match l with
           | [] => None
           | n1 :: l' =>
             match first_error n1 with
             | Some err => Some err
             | None => scan l'
             end
           end) dirs
      end
    else if is_pack d then
      match Info d with
      | inr err => Some err
      | inl _ => None
      end
    else None
  end.

(** ** Calls of the maintenance operations, as they appear in a trace *)

Definition ev_clone (url local : string) (r : option error) : event :=
  EvRun "git" ["clone"; "--mirror"; url; local] r.
Definition ev_disablegc (local : string) (r : option error) : event :=
  EvRun "git" ["-C"; local; "config"; "--local"; "gc.auto"; "0"] r.
Definition ev_touch (join : list string -> string) (local : string)
           (r : option error) : event :=
  EvRun "touch" [join [local; "refs"; ".gitkeep"];
                 join [local; "objects"; ".gitkeep"]] r.
Definition ev_objects (join : list string -> string) (local : string)
           (r : walk_root) : event :=
  EvWalkDir (join [local; "objects"]) r.
Definition ev_repack (local : string) (r : option error) : event :=
  EvRun "git" ["-C"; local; "repack"; "--max-pack-size=95m"; "-A"; "-d"] r.
Definition ev_update (local : string) (r : option error) : event :=
  EvRun "git" ["-C"; local; "remote"; "update"] r.
Definition ev_remove (local : string) (r : option error) : event :=
  EvRun "rm" ["-rf"; local] r.

(** Recognisers, by the shape of the command line. *)
Definition is_git_C (sub : string) (ev : event) : bool :=
  match ev with
  | EvRun name (a0 :: _ :: a2 :: _) _ =>
    String.eqb name "git" && String.eqb a0 "-C" && String.eqb a2 sub
  | _ => false
  end.

Definition is_clone (ev : event) : bool :=
  match ev with
  | EvRun name (a0 :: _) _ => String.eqb name "git" && String.eqb a0 "clone"
  | _ => false
  end.
Definition is_disablegc : event -> bool := is_git_C "config".
Definition is_repack : event -> bool := is_git_C "repack".
Definition is_update : event -> bool := is_git_C "remote".
Definition is_touch (ev : event) : bool :=
  match ev with EvRun name _ _ => String.eqb name "touch" | _ => false end.
Definition is_remove (ev : event) : bool :=
  match ev with EvRun name _ _ => String.eqb name "rm" | _ => false end.
Definition is_walk (ev : event) : bool :=
  match ev with EvWalkDir _ _ => true | _ => false end.

(** A request to the remote host. *)
Definition is_fetch (ev : event) : bool :=
  match ev with EvDo _ _ => true | _ => false end.

(** Any of clone, disableAutoGC, mark, inspection, repack, update, remove. *)
Definition is_maintenance (ev : event) : bool :=
  match ev with
  | EvRun _ _ _ | EvWalkDir _ _ => true
  | _ => false
  end.

(** The place of a call in the order clone, disableAutoGC, mark, inspection,
    repack, update, remove; [0] for any other call. *)
Definition stage (ev : event) : nat :=
  if is_clone ev then 1
  else if is_disablegc ev then 2
  else if is_touch ev then 3
  else if is_walk ev then 4
  else if is_repack ev then 5
  else if is_update ev then 6
  else if is_remove ev then 7
  else 0.

(** The effect of a recorded call on the world. *)
Definition replay {W} (sys : Sys W) (w : W) (ev : event) : W :=
  match ev with
  | EvMkdirAll path perm _ => snd (os_MkdirAll sys path perm w)
  | EvRun name args _ => snd (exec_Run sys name args w)
  | EvDo req _ => snd (client_Do sys req w)
  | EvReadFile _ _ | EvStat _ _ | EvWalkDir _ _ => w
  end.

(** What the first inspection of a trace measured: the results of [objects]
    on what the walk saw. *)
Fixpoint inspected {W} (sys : Sys W) (tr : list event)
  : option (Z * Z * option error) :=
  match tr with
  | [] => None
  | EvWalkDir root r :: _ => Some (objects_walk sys root r)
  | _ :: tr' => inspected sys tr'
  end.

(** [95*1024*1024] *)
Definition repack_threshold : Z := 95 * 1024 * 1024.

(** ** The two sequences of the engine *)

Section Runs.
Context {W : Type} (sys : Sys W).

(** The calls of a new-mirror sequence on [remote] and [local], with the
    outcome they lead to: every line is a run that stops at its first failing
    step (followed by the removal of [local]) or goes through. *)
Inductive new_mirror_run (remote local : string) : list event -> outcome -> Prop :=
| NM_clone_fails e r :
    new_mirror_run remote local
      [ev_clone remote local (Some e); ev_remove local r] OFailedMirror
| NM_disablegc_fails e r :
    new_mirror_run remote local
      [ev_clone remote local None; ev_disablegc local (Some e);
       ev_remove local r] OFailedMirror
| NM_touch_fails e r :
    new_mirror_run remote local
      [ev_clone remote local None; ev_disablegc local None;
       ev_touch (filepath_Join sys) local (Some e); ev_remove local r]
      OFailedMirror
| NM_objects_fails t largest count e r :
    objects_walk sys (filepath_Join sys [local; "objects"]) t
      = (largest, count, Some e) ->
    new_mirror_run remote local
      [ev_clone remote local None; ev_disablegc local None;
       ev_touch (filepath_Join sys) local None;
       ev_objects (filepath_Join sys) local t; ev_remove local r]
      OFailedMirror
| NM_repack_fails t largest count e r :
    objects_walk sys (filepath_Join sys [local; "objects"]) t
      = (largest, count, None) ->
    repack_threshold < largest ->
    new_mirror_run remote local
      [ev_clone remote local None; ev_disablegc local None;
       ev_touch (filepath_Join sys) local None;
       ev_objects (filepath_Join sys) local t;
       ev_repack local (Some e); ev_remove local r]
      OFailedMirror
| NM_update_fails t largest count e r :
    objects_walk sys (filepath_Join sys [local; "objects"]) t
      = (largest, count, None) ->
    new_mirror_run remote local
      ([ev_clone remote local None; ev_disablegc local None;
        ev_touch (filepath_Join sys) local None;
        ev_objects (filepath_Join sys) local t] ++
       (if repack_threshold <? largest then [ev_repack local None] else []) ++
       [ev_update local (Some e); ev_remove local r])
      OFailedMirror
| NM_succeeds t largest count :
    objects_walk sys (filepath_Join sys [local; "objects"]) t
      = (largest, count, None) ->
    new_mirror_run remote local
      ([ev_clone remote local None; ev_disablegc local None;
        ev_touch (filepath_Join sys) local None;
        ev_objects (filepath_Join sys) local t] ++
       (if repack_threshold <? largest then [ev_repack local None] else []) ++
       [ev_update local None])
      OMirrored.

(** The calls of an existing-mirror sequence on [local]. *)
Inductive existing_mirror_run (local : string) : list event -> outcome -> Prop :=
| EM_disablegc_fails e :
    existing_mirror_run local [ev_disablegc local (Some e)] OFailedUpdate
| EM_update_fails e :
    existing_mirror_run local
      [ev_disablegc local None; ev_update local (Some e)] OFailedUpdate
| EM_succeeds :
    existing_mirror_run local
      [ev_disablegc local None; ev_update local None] OUpdated.

(** What one iteration of the inner loop did to the state: the calls [tr]
    were made, in this order, the world changed by them alone, the counter of
    [o] of the cell [stat] went up and no other cell and no other field
    changed. *)
Definition repo_step (stat : addr) (s s' : state W) (tr : list event)
           (o : outcome) : Prop :=
  trace s' = trace s ++ tr /\
  world s' = fold_left (replay sys) tr (world s) /\
  heap s' stat = bump o (heap s stat) /\
  (forall q, q <> stat -> heap s' q = heap s q) /\
  next s' = next s.
End Runs.

(** ** The cell of a source at the end of the batch *)

(** The cell belongs to [source] and its six counters add up to the number of
    repositories listed for it (a number that fits an [int], as the length
    of a slice does). *)
Definition cell_post (source : Source) (st : Stat) : Prop :=
  Stat_Source st = source /\
  (Z.of_nat (List.length (Repos st)) <= int_max ->
   counters_nonneg st /\ tally st = Z.of_nat (List.length (Repos st))).

(** The listing of every source in [sources] ends within [fuel] pages, in
    whatever state it starts. *)
Definition listings_end {W} (sys : Sys W) (fuel : nat) (sources : list Source)
  : Prop :=
  forall source, In source sources ->
                 forall s : state W, fst (getRepo sys fuel source s) <> None.

(** The store of cells and the log are the same in [s] and [s']. *)
Definition same_store {W} (s s' : state W) : Prop :=
  heap s' = heap s /\ next s' = next s /\ out s' = out s.

(** * A small concrete system

    A stand-in for the outside world, used to run the program on concrete
    inputs: the world is the list of paths that exist; [git clone] creates its
    target and [rm -rf] deletes it; which commands fail, what a walk sees and
    what the remote host lists is fixed by a [scenario]. *)

Module Demo.

Definition ENOENT : error := mkError "no such file or directory" true false.
Definition EACCES : error := mkError "permission denied" false false.
Definition EIO : error := mkError "input/output error" false false.
Definition ErrBadPattern : error := mkError "syntax error in pattern" false false.
Definition exit_status_1 : error := mkError "exit status 1" false false.
Definition ECONNREFUSED : error := mkError "connection refused" false false.

Record scenario : Type := mkScenario {
  sc_config : Config;
  (** paths on which [os.Stat] fails with a permission error *)
  sc_denied : list string;
  (** paths that, when they exist, are regular files and not directories *)
  sc_plain : list string;
  (** a command fails when its name or one of its arguments is listed here *)
  sc_failing : list string;
  (** what a walk below any path sees *)
  sc_tree : walk_root;
  (** URLs on which the request fails *)
  sc_unreachable : list string;
  (** URL and decoded listing; a URL that is not listed gives an empty page *)
  sc_listing : list (string * list Repo)
}.

Definition mem (x : string) (l : list string) : bool :=
  existsb (String.eqb x) l.

(** A glob matcher for the stand-in: [*] and [?] stop at a separator, every
    other character stands for itself, and a pattern with a bracket is
    reported as malformed. *)
Fixpoint glob (p : string) : string -> bool :=
  match p with
  | EmptyString =>
    fun s => match s with EmptyString => true | String _ _ => false end
  | String c p' =>
    if Ascii.eqb c "*" then
      fix star (s : string) : bool :=
        glob p' s ||
        match s with
        | EmptyString => false
        | String a s' => negb (Ascii.eqb a "/") && star s'
        end
    else
      fun s =>
        match s with
        | EmptyString => false
        | String a s' =>
          (if Ascii.eqb c "?" then negb (Ascii.eqb a "/") else Ascii.eqb c a)
          && glob p' s'
        end
  end.

Fixpoint has_bracket (p : string) : bool :=
  match p with
  | EmptyString => false
  | String c p' => Ascii.eqb c "[" || has_bracket p'
  end.

Definition Match (pattern name : string) : bool * option error :=
  if has_bracket pattern then (false, Some ErrBadPattern)
  else (glob pattern name, None).

Definition Join (elem : list string) : string := String.concat "/" elem.

Fixpoint lookup (key : string) (l : list (string * list Repo)) : list Repo :=
  match l with
  | [] => []
  | (k, v) :: l' => if String.eqb k key then v else lookup key l'
  end.

Definition run (sc : scenario) (name : string) (args : list string)
           (w : list string) : option error * list string :=
  if mem name (sc_failing sc) || existsb (fun a => mem a (sc_failing sc)) args
  then (Some exit_status_1, w)
  else if String.eqb name "git" && String.eqb (hd "" args) "clone"
  then (None, last args "" :: w)
  else if String.eqb name "rm"
  then (None, filter (fun p => negb (String.eqb p (last args ""))) w)
  else (None, w).

Definition sys (sc : scenario) : Sys (list string) :=
  {| os_ReadFile := fun _ _ => inl "{}";
     os_MkdirAll := fun _ _ w => (None, w);
     os_Stat := fun name w =>
       if mem name (sc_denied sc) then inr EACCES
       else if mem name w then
         if mem name (sc_plain sc) then inl (mkFileInfo 0 false)
         else inl (mkFileInfo 4096 true)
       else inr ENOENT;
     os_Lstat_tree := fun _ _ => sc_tree sc;
     exec_Run := run sc;
     client_Do := fun req w =>
       if mem (URL req) (sc_unreachable sc) then (inr ECONNREFUSED, w)
       else (inl (mkResponse 200 (URL req)), w);
     http_NewRequest := fun method url => inl (mkRequest method url []);
     json_Unmarshal_Config := fun _ => inl (sc_config sc);
     json_Decode_Repos := fun resp => inl (lookup (Body resp) (sc_listing sc));
     filepath_Join := Join;
     filepath_Match := Match |}.

(** The state in which a run starts: no path exists, no cell is allocated,
    nothing has been called or logged. *)
Definition start (w : list string) : state (list string) :=
  mkState w (fun _ => new_Stat (mkSource "" "" "" [] [])) 0%nat [] [].

(** The state of the inner loop on its first repository: the cell [0] holds
    the fresh [Stat] of [source]. *)
Definition in_loop (source : Source) (w : list string) : state (list string) :=
  mkState w (fun _ => new_Stat source) 1%nat [] [].

Definition gitlab : Source :=
  mkSource "gitlab.example.com" "" ""
           ["https://gitlab.example.com/*/archived/*"] [].
Definition other : Source :=
  mkSource "git.example.org" "bot" "s3cret" [] [].

Definition api : Repo :=
  mkRepo 1 "api" "team / api" "api" "team/api" "2020-01-01T00:00:00Z"
         "https://gitlab.example.com/team/api.git".
Definition old : Repo :=
  mkRepo 2 "old" "team / archived / old" "old" "team/archived/old"
         "2019-01-01T00:00:00Z"
         "https://gitlab.example.com/team/archived/old.git".

Definition config : Config := mkConfig [gitlab; other] "/srv/mirror".

Definition api_local : string := "/srv/mirror/gitlab.example.com/team/api.git".

Definition file (name : string) (size : Z) : node :=
  Node (mkDirEntry name false (inl (mkFileInfo size false))) [] None.
Definition dir (name : string) (entries : list node) : node :=
  Node (mkDirEntry name true (inl (mkFileInfo 4096 true))) entries None.

(** An object store with one loose object and a pack of [size] bytes with
    its index. *)
Definition store_with_pack (size : Z) : node :=
  dir "objects"
      [dir "4b" [file "825dc642cb6eb9a060e54bf8d69288fbee4904" 15];
       dir "info" [];
       dir "pack" [file "pack-1f0e.idx" 1156; file "pack-1f0e.pack" size]].

Definition gitlab_page (n : Z) : string :=
  "https://gitlab.example.com/api/v4/projects?simple=true&page=" +++ itoa n
  +++ "&per_page=50&order_by=id&sort=asc".
Definition other_page (n : Z) : string :=
  "https://git.example.org/api/v4/projects?simple=true&page=" +++ itoa n
  +++ "&per_page=50&order_by=id&sort=asc".

(** Nothing fails; the first host lists two repositories on its first
    page. *)
Definition quiet : scenario :=
  mkScenario config [] [] [] (inl (store_with_pack 2048)) []
             [(gitlab_page 1, [api; old])].

Definition with_failing (words : list string) (sc : scenario) : scenario :=
  mkScenario (sc_config sc) (sc_denied sc) (sc_plain sc) words (sc_tree sc)
             (sc_unreachable sc) (sc_listing sc).
Definition with_tree (t : walk_root) (sc : scenario) : scenario :=
  mkScenario (sc_config sc) (sc_denied sc) (sc_plain sc) (sc_failing sc) t
             (sc_unreachable sc) (sc_listing sc).
Definition with_denied (paths : list string) (sc : scenario) : scenario :=
  mkScenario (sc_config sc) paths (sc_plain sc) (sc_failing sc) (sc_tree sc)
             (sc_unreachable sc) (sc_listing sc).
Definition with_unreachable (urls : list string) (sc : scenario) : scenario :=
  mkScenario (sc_config sc) (sc_denied sc) (sc_plain sc) (sc_failing sc)
             (sc_tree sc) urls (sc_listing sc).
Definition with_plain (paths : list string) (sc : scenario) : scenario :=
  mkScenario (sc_config sc) (sc_denied sc) paths (sc_failing sc) (sc_tree sc)
             (sc_unreachable sc) (sc_listing sc).

End Demo.

(** * More vocabulary: the listing and the calls of one iteration *)

(** The pages [getRepo] goes through from [page] on, in a state [s]: every
    page of [pages] came back decoded and not empty, and the page after them
    ended the listing, by being empty ([None]) or by failing ([Some err]).
    Page numbers go up by [++]. *)
Inductive listing {W} (sys : Sys W) (source : Source) (perPage : Z)
  : Z -> state W -> list (list Repo) -> option error -> state W -> Prop :=
| listing_empty page s pageRepos s1 :
    getRepoPage sys source page perPage s = ((pageRepos, None), s1) ->
    List.length pageRepos = 0%nat ->
    listing sys source perPage page s [] None s1
| listing_failed page s pageRepos err s1 :
    getRepoPage sys source page perPage s = ((pageRepos, Some err), s1) ->
    listing sys source perPage page s [] (Some err) s1
| listing_more page s pageRepos s1 pages r s2 :
    getRepoPage sys source page perPage s = ((pageRepos, None), s1) ->
    List.length pageRepos <> 0%nat ->
    listing sys source perPage (incr page) s1 pages r s2 ->
    listing sys source perPage page s (pageRepos :: pages) r s2.

(** What [getRepo] returns for the pages of a listing: all of them, in
    order, or nothing beside the error. *)
Definition listed (pages : list (list Repo)) (r : option error)
  : list Repo * option error :=
  match r with
  | None => (List.concat pages, None)
  | Some err => ([], Some err)
  end.

(** The request [getRepoPage] sends for [source], given the one
    [http.NewRequest] built. *)
Definition with_token (source : Source) (req : Request) : Request :=
  if negb (String.eqb (Token source) "")
  then Header_Add req "Authorization" ("Bearer " +++ Token source)
  else req.

(** A call that concerns the mirror at [local] of the repository at [remote]
    and nothing else: the [Stat] of [local], the walk of its [objects]
    directory, or one of the seven commands on it. *)
Definition confined {W} (sys : Sys W) (remote local : string) (ev : event)
  : Prop :=
  (exists r, ev = EvStat local r) \/
  (exists r, ev = ev_objects (filepath_Join sys) local r) \/
  (exists r, ev = ev_clone remote local r) \/
  (exists r, ev = ev_disablegc local r) \/
  (exists r, ev = ev_touch (filepath_Join sys) local r) \/
  (exists r, ev = ev_repack local r) \/
  (exists r, ev = ev_update local r) \/
  (exists r, ev = ev_remove local r).

(** The ways [main] can stop before the batch: the configuration cannot be
    read or decoded, or the destination directory cannot be made and the
    error is not that it exists.  The error is the one [main] logs. *)
Inductive startup_failure {W} (sys : Sys W) (w : W) : error -> Prop :=
| SF_read err :
    os_ReadFile sys "config.json" w = inr err ->
    startup_failure sys w err
| SF_decode b err :
    os_ReadFile sys "config.json" w = inl b ->
    json_Unmarshal_Config sys b = inr err ->
    startup_failure sys w err
| SF_mkdir b config err :
    os_ReadFile sys "config.json" w = inl b ->
    json_Unmarshal_Config sys b = inl config ->
    fst (os_MkdirAll sys (Destination config) 493 w) = Some err ->
    os_IsExist err = false ->
    startup_failure sys w err.

(** The two calls [main] makes before the batch. *)
Definition is_startup (ev : event) : bool :=
  match ev with
  | EvReadFile _ _ | EvMkdirAll _ _ _ => true
  | _ => false
  end.

(** The paths on which a trace calls [os.Stat], in order. *)
Fixpoint stat_names (tr : list event) : list string :=
  match tr with
  | [] => []
  | EvStat name _ :: tr' => name :: stat_names tr'
  | _ :: tr' => stat_names tr'
  end.

(** What the first walk of a trace saw. *)
Fixpoint walked (tr : list event) : option walk_root :=
  match tr with
  | [] => None
  | EvWalkDir _ r :: _ => Some r
  | _ :: tr' => walked tr'
  end.

(** A file of the tree whose name ends in [.pack] and whose size is above
    the bound of the repack. *)
Definition has_large_pack (n : node) : Prop :=
  exists d, In d (files n) /\ is_pack d = true /\
            repack_threshold < pack_size d.







(** * Lemmas *)

(** ** Machine integers and counters *)

Lemma wrap64_small z : int_min <= z <= int_max -> wrap64 z = z.
Proof.
  unfold wrap64, int_min, int_max. intros H.
  rewrite Z.mod_small; lia.
Qed.

Lemma incr_small x : int_min <= x < int_max -> incr x = x + 1.
Proof. intros H. unfold incr. apply wrap64_small. lia. Qed.

Lemma incr_wrap64 z : incr (wrap64 z) = wrap64 (z + 1).
Proof.
  unfold incr, wrap64.
  replace ((z + 2 ^ 63) mod 2 ^ 64 - 2 ^ 63 + 1 + 2 ^ 63)
    with ((z + 2 ^ 63) mod 2 ^ 64 + 1) by lia.
  replace (z + 1 + 2 ^ 63) with ((z + 2 ^ 63) + 1) by lia.
  rewrite Zplus_mod_idemp_l. reflexivity.
Qed.

Lemma counter_bump_same o st :
  int_min <= counter o st < int_max ->
  counter o (bump o st) = counter o st + 1.
Proof. intros H. destruct o; cbn in *; now apply incr_small. Qed.

Lemma counter_bump_other o o' st :
  o' <> o -> counter o' (bump o st) = counter o' st.
Proof. intros H. destruct o, o'; cbn; congruence. Qed.

Lemma bump_keeps_Source o st : Stat_Source (bump o st) = Stat_Source st.
Proof. now destruct o. Qed.

Lemma bump_keeps_Repos o st : Repos (bump o st) = Repos st.
Proof. now destruct o. Qed.

Lemma tally_bump o st :
  counters_nonneg st -> tally st < int_max ->
  counters_nonneg (bump o st) /\ tally (bump o st) = tally st + 1.
Proof.
  unfold counters_nonneg, tally, int_max.
  intros (H1 & H2 & H3 & H4 & H5 & H6) Hlt.
  destruct o; cbn; rewrite incr_small by (unfold int_min, int_max; lia);
    repeat split; lia.
Qed.

(** ** Formatting and suffixes, on examples *)

Example itoa_examples :
  itoa 0 = "0" /\ itoa 50 = "50" /\ itoa 99614721 = "99614721" /\
  itoa (-7) = "-7".
Proof. repeat split. Qed.

Example HasSuffix_examples :
  HasSuffix "pack-1f0e.pack" ".pack" = true /\
  HasSuffix ".pack" ".pack" = true /\
  HasSuffix "pack" ".pack" = false /\
  HasSuffix "pack-1f0e.idx" ".pack" = false /\
  HasSuffix "pack-1f0e.pack.tmp" ".pack" = false.
Proof. repeat split. Qed.

Example page_url_example :
  page_url Demo.gitlab 3 50
  = "https://gitlab.example.com/api/v4/projects?simple=true&page=3&per_page=50&order_by=id&sort=asc".
Proof. reflexivity. Qed.

Example local_path_example :
  local_path (Demo.sys Demo.quiet) Demo.config Demo.gitlab Demo.api
  = Demo.api_local.
Proof. reflexivity. Qed.

Example Source_String_examples :
  Source_String Demo.gitlab = "gitlab.example.com" /\
  Source_String Demo.other = "bot@git.example.org".
Proof. split; reflexivity. Qed.

(** ** Symbolic execution of the engine *)

(** Unfolds the monad and the recorded calls. *)
Ltac run_unfold :=
  unfold inc_Skipped, inc_Mirrored, inc_Updated, inc_Failed, inc_FailedMirror,
    inc_FailedUpdate;
  unfold bind, ret, log_Printf, load, store, emit;
  cbn [world heap next trace out fst snd].

(** Splits on the result of the next command. *)
Ltac run_cmd :=
  match goal with
  | |- context [exec_Run ?sys ?n ?a ?w] =>
    let r := fresh "r" in
    let w' := fresh "w" in
    let E := fresh "E" in
    destruct (exec_Run sys n a w) as [r w'] eqn:E;
    cbn [world heap next trace out fst snd]
  end.

(** Closes a [repo_step] goal once the run is fully evaluated. *)
Ltac step_done :=
  unfold repo_step; cbn [world heap next trace out fst snd];
  split; [ | split; [ | split; [ | split ] ] ];
  [ repeat rewrite <- app_assoc; reflexivity
  | cbn [fold_left replay ev_clone ev_disablegc ev_touch ev_objects ev_repack
         ev_update ev_remove app];
    repeat match goal with
           | E : exec_Run _ _ _ _ = _ |- _ => rewrite E; cbn [snd]
           end; reflexivity
  | rewrite Nat.eqb_refl; reflexivity
  | let q := fresh "q" in
    let H := fresh "H" in
    intros q H; apply Nat.eqb_neq in H; rewrite H; reflexivity
  | reflexivity ].

(** ** The filter *)

Lemma matches_spec {W} (sys : Sys W) s e :
  matches sys s e = true <-> pattern_hit sys s e.
Proof.
  unfold pattern_hit. induction s as [|v s IH]; cbn [matches].
  - split; [discriminate | intros (v & [] & _)].
  - destruct (String.eqb_spec v e) as [Heq|Hneq].
    + split; [intros _; exists v; split; [now left | now left] | reflexivity].
    + destruct (filepath_Match sys v e) as [matched [err|]] eqn:Em; cbn [andb].
      * rewrite IH. split.
        -- intros (x & Hin & Hx). exists x. split; [now right | exact Hx].
        -- intros (x & [<-|Hin] & Hx).
           ++ destruct Hx as [Hx|Hx]; [contradiction | ].
              rewrite Em in Hx. discriminate Hx.
           ++ exists x. auto.
      * destruct matched.
        -- split; [intros _; exists v; split; [now left | now right]
                  | reflexivity].
        -- rewrite IH. split.
           ++ intros (x & Hin & Hx). exists x. split; [now right | exact Hx].
           ++ intros (x & [<-|Hin] & Hx).
              ** destruct Hx as [Hx|Hx]; [contradiction | ].
                 rewrite Em in Hx. discriminate Hx.
              ** exists x. auto.
Qed.

Lemma matches_false_spec {W} (sys : Sys W) s e :
  matches sys s e = false <-> ~ pattern_hit sys s e.
Proof.
  rewrite <- matches_spec. destruct (matches sys s e); split; congruence.
Qed.

(** ** The walk *)

Lemma node_induction (P : node -> Prop) :
  (forall d dirs readErr, Forall P dirs -> P (Node d dirs readErr)) ->
  forall n, P n.
Proof.
  intros H. fix IH 1. intros [d dirs readErr]. apply H.
  induction dirs as [|n dirs IHdirs]; constructor; [apply IH | exact IHdirs].
Qed.

Lemma iter_incr n : Nat.iter n incr 0 = wrap64 (Z.of_nat n).
Proof.
  induction n as [|n IH].
  - reflexivity.
  - rewrite Nat.iter_succ, IH, incr_wrap64. f_equal. lia.
Qed.

Lemma iter_incr_add n m c :
  Nat.iter m incr (Nat.iter n incr c) = Nat.iter (n + m) incr c.
Proof.
  rewrite Nat.add_comm. induction m as [|m IH].
  - reflexivity.
  - cbn [Nat.add]. rewrite !Nat.iter_succ. now rewrite IH.
Qed.

Lemma fold_left_max_spec sizes a :
  let m := fold_left Z.max sizes a in
  In m (a :: sizes) /\ a <= m /\ Forall (fun z => z <= m) sizes.
Proof.
  revert a. induction sizes as [|z sizes IH]; intros a; cbn [fold_left].
  - repeat split; [now left | lia | constructor].
  - destruct (IH (Z.max a z)) as (Hin & Hle & Hall).
    set (m := fold_left Z.max sizes (Z.max a z)) in *.
    split; [ | split ].
    + destruct Hin as [Hin|Hin]; [ | right; now right].
      destruct (Z.max_spec a z) as [[_ Hm]|[_ Hm]]; rewrite Hm in Hin.
      * right; now left.
      * now left.
    + lia.
    + constructor; [lia | exact Hall].
Qed.

Lemma fold_left_max_right sizes a :
  fold_left Z.max sizes a = fold_right Z.max a sizes.
Proof.
  revert a. induction sizes as [|z sizes IH]; intros a; cbn [fold_left fold_right].
  - reflexivity.
  - rewrite IH. clear IH. induction sizes as [|y sizes IH]; cbn [fold_right].
    + apply Z.max_comm.
    + rewrite IH. lia.
Qed.

Lemma objects_fn_error path d err st :
  objects_fn path d (Some err) st = (st, Some err).
Proof. destruct st. reflexivity. Qed.

Lemma objects_fn_dir path d st :
  IsDir d = true -> objects_fn path (Some d) None st = (st, None).
Proof. intros H. destruct st. unfold objects_fn. now rewrite H. Qed.

Lemma objects_fn_file path d largestsize count :
  IsDir d = false ->
  objects_fn path (Some d) None (largestsize, count)
  = if is_pack d then
      match Info d with
      | inr err => ((largestsize, incr count), Some err)
      | inl fi => ((Z.max largestsize (Size fi), incr count), None)
      end
    else ((largestsize, incr count), None).
Proof.
  intros H. unfold objects_fn, is_pack. rewrite H.
  destruct (HasSuffix (Name d) ".pack"); cbn [negb]; [ | reflexivity].
  destruct (Info d) as [fi|err]; [ | reflexivity].
  destruct (Z.leb_spec largestsize (Size fi)).
  - now rewrite Z.max_r.
  - now rewrite Z.max_l by lia.
Qed.

Section WalkLemmas.
Variable join : list string -> string.

(** What the walk of [objects] does below one node, from any values of the
    two results. *)
Lemma walkDir_objects n :
  forall path largestsize count,
    match first_error n with
    | None =>
      walkDir join objects_fn path n (largestsize, count)
      = ((fold_left Z.max (pack_sizes n) largestsize,
          Nat.iter (List.length (files n)) incr count), None)
    | Some err =>
      exists l c,
        walkDir join objects_fn path n (largestsize, count) = ((l, c), Some err)
    end.
Proof.
  induction n as [d dirs readErr IH] using node_induction.
  intros path largestsize count.
  unfold pack_sizes. cbn [walkDir first_error files].
  destruct (IsDir d) eqn:Edir; cbn [negb].
  - rewrite objects_fn_dir by exact Edir.
    destruct readErr as [err|].
    + rewrite objects_fn_error. eexists _, _. reflexivity.
    + revert largestsize count.
      induction IH as [|n dirs Hn _ IHdirs]; intros largestsize count.
      * reflexivity.
      * specialize (Hn (join [path; Name (entry n)]) largestsize count).
        destruct (first_error n) as [err|].
        -- destruct Hn as (l & c & Hn). rewrite Hn. eexists _, _. reflexivity.
        -- rewrite Hn.
           specialize (IHdirs (fold_left Z.max (pack_sizes n) largestsize)
                              (Nat.iter (List.length (files n)) incr count)).
           match goal with
           | |- match ?scan with _ => _ end =>
             destruct scan as [err|]
           end.
           ++ exact IHdirs.
           ++ rewrite IHdirs. cbn [flat_map]. unfold pack_sizes.
              rewrite filter_app, map_app, fold_left_app, length_app,
                iter_incr_add.
              reflexivity.
  - rewrite objects_fn_file by exact Edir.
    cbn [filter].
    destruct (is_pack d) eqn:Epack.
    + unfold pack_size. destruct (Info d) as [fi|err] eqn:Einfo.
      * cbn [map fold_left]. rewrite Einfo. reflexivity.
      * eexists _, _. reflexivity.
    + reflexivity.
Qed.
End WalkLemmas.

Lemma files_not_dirs n : Forall (fun d => IsDir d = false) (files n).
Proof.
  induction n as [d dirs readErr IH] using node_induction.
  cbn [files]. destruct (IsDir d) eqn:Edir.
  - induction IH as [|n dirs Hn _ IHdirs]; cbn [flat_map].
    + constructor.
    + apply Forall_app. split; assumption.
  - repeat constructor. exact Edir.
Qed.

(** ** Order of the calls *)

Lemma stage_repack ev : is_repack ev = true -> stage ev = 5%nat.
Proof.
  intros H. destruct ev as [ | | | |name args r| ]; try discriminate H.
  destruct args as [|a0 [|a1 [|a2 rest]]]; try discriminate H.
  unfold is_repack, is_git_C in H.
  apply andb_prop in H as [H H2]. apply andb_prop in H as [H0 H1].
  apply String.eqb_eq in H0, H1, H2. subst. reflexivity.
Qed.

Lemma stage_update ev : is_update ev = true -> stage ev = 6%nat.
Proof.
  intros H. destruct ev as [ | | | |name args r| ]; try discriminate H.
  destruct args as [|a0 [|a1 [|a2 rest]]]; try discriminate H.
  unfold is_update, is_git_C in H.
  apply andb_prop in H as [H H2]. apply andb_prop in H as [H0 H1].
  apply String.eqb_eq in H0, H1, H2. subst. reflexivity.
Qed.

(** In a trace whose calls follow the order of the stages no repack comes
    after an update. *)
Lemma no_repack_after_update tr :
  StronglySorted Nat.lt (map stage tr) ->
  forall pre ev post,
    tr = pre ++ ev :: post -> is_update ev = true ->
    existsb is_repack post = false.
Proof.
  intros Hs pre ev post -> Hev. revert Hs.
  induction pre as [|a pre IH]; cbn [app map]; intros Hs.
  - apply StronglySorted_inv in Hs as [_ Hall].
    rewrite (stage_update _ Hev) in Hall. clear Hev.
    induction post as [|b post IHp]; [reflexivity | ].
    cbn [map] in Hall. inversion Hall as [|x l Hb Hrest]; subst.
    cbn [existsb]. destruct (is_repack b) eqn:Eb.
    + rewrite (stage_repack _ Eb) in Hb. lia.
    + now apply IHp.
  - apply StronglySorted_inv in Hs as [Hs _]. now apply IH.
Qed.

(** ** Shape of the two sequences *)

Section RunLemmas.
Context {W : Type} (sys : Sys W).

(** Case analysis on a run, with the test of the threshold decided. *)
Ltac run_cases H :=
  destruct H;
  repeat match goal with
         | |- context [repack_threshold <? ?x] =>
           let E := fresh "Ebig" in destruct (repack_threshold <? x) eqn:E
         end;
  cbn [app].

Ltac eval_stages :=
  match goal with
  | |- StronglySorted _ ?l =>
    let l' := eval vm_compute in l in change l with l'
  end.

Lemma new_mirror_run_order remote local tr o :
  new_mirror_run sys remote local tr o ->
  StronglySorted Nat.lt (map stage tr).
Proof.
  intros H. run_cases H; eval_stages; repeat constructor.
Qed.


Lemma new_mirror_run_repack remote local tr o :
  new_mirror_run sys remote local tr o ->
  existsb is_repack tr = true <->
  exists largest count,
    inspected sys tr = Some (largest, count, None) /\
    repack_threshold < largest.
Proof.
  intros H. run_cases H;
    (split;
     [ intros Hex; try discriminate Hex
     | intros (l' & c' & Hin & Hlt); cbn [inspected ev_clone ev_disablegc
         ev_touch ev_objects ev_repack ev_update ev_remove] in Hin;
       try discriminate Hin ]);
    repeat match goal with
           | A : objects_walk _ _ _ = _, B : Some (objects_walk _ _ _) = _ |- _ =>
             rewrite A in B; first [discriminate B | injection B as ? ?; subst]
           end;
    try reflexivity;
    try (apply Z.ltb_ge in Ebig; lia);
    try (eexists _, _; split;
         [ cbn [inspected ev_clone ev_disablegc ev_touch ev_objects ev_repack
                ev_update ev_remove];
           match goal with A : objects_walk _ _ _ = _ |- _ => rewrite A end;
           reflexivity
         | first [assumption | now apply Z.ltb_lt] ]).
Qed.

Lemma new_mirror_run_has_clone remote local tr o :
  new_mirror_run sys remote local tr o -> existsb is_clone tr = true.
Proof. intros H. run_cases H; reflexivity. Qed.

Lemma new_mirror_run_inspection_error remote local tr o largest count e :
  new_mirror_run sys remote local tr o ->
  inspected sys tr = Some (largest, count, Some e) ->
  o = OFailedMirror /\ exists pre r, tr = pre ++ [ev_remove local r].
Proof.
  intros H. run_cases H; intros Hin;
    cbn [inspected ev_clone ev_disablegc ev_touch ev_objects ev_repack
         ev_update ev_remove] in Hin;
    try discriminate Hin;
    try (match goal with
         | A : objects_walk _ _ _ = _ |- _ => rewrite A in Hin
         end; discriminate Hin).
  split; [reflexivity | ].
  match goal with
  | |- exists pre r, ?l = _ =>
    let p := eval cbn [removelast] in (removelast l) in
    exists p; eexists; reflexivity
  end.
Qed.

Lemma existing_mirror_run_order local tr o :
  existing_mirror_run local tr o ->
  StronglySorted Nat.lt (map stage tr).
Proof.
  intros H. destruct H; eval_stages; repeat constructor.
Qed.

Lemma existing_mirror_run_calls local tr o :
  existing_mirror_run local tr o ->
  forallb (fun ev => is_disablegc ev || is_update ev) tr = true /\
  existsb is_remove tr = false /\
  existsb is_clone tr = false /\
  existsb is_repack tr = false /\
  existsb is_walk tr = false /\
  (o = OUpdated \/ o = OFailedUpdate).
Proof.
  intros H. destruct H; repeat split; auto.
Qed.
End RunLemmas.

Section EngineLemmas.
Context {W : Type} (sys : Sys W).

Lemma mirror_existing_run remote local stat (s : state W) :
  exists tr o,
    existing_mirror_run local tr o /\
    repo_step sys stat s (snd (mirror_existing sys remote local stat s)) tr o.
Proof.
  unfold mirror_existing, disablegc, update, Cmd_Run. run_unfold.
  run_cmd. destruct r as [e|]; run_unfold.
  - exists [ev_disablegc local (Some e)], OFailedUpdate.
    split; [constructor | step_done].
  - run_cmd. destruct r as [e|]; run_unfold.
    + exists [ev_disablegc local None; ev_update local (Some e)], OFailedUpdate.
      split; [constructor | step_done].
    + exists [ev_disablegc local None; ev_update local None], OUpdated.
      split; [constructor | step_done].
Qed.

Lemma mirror_new_run remote local stat (s : state W) :
  exists tr o,
    new_mirror_run sys remote local tr o /\
    repo_step sys stat s (snd (mirror_new sys remote local stat s)) tr o.
Proof.
  unfold mirror_new, clone, disablegc, touch, objects, repack, update, remove,
    Cmd_Run.
  run_unfold.
  run_cmd. destruct r as [e|]; run_unfold.
  { run_cmd. eexists _, OFailedMirror.
    split; [apply (NM_clone_fails _ _ _ e r) | step_done]. }
  run_cmd. destruct r as [e|]; run_unfold.
  { run_cmd. eexists _, OFailedMirror.
    split; [apply (NM_disablegc_fails _ _ _ e r) | step_done]. }
  run_cmd. destruct r as [e|]; run_unfold.
  { run_cmd. eexists _, OFailedMirror.
    split; [apply (NM_touch_fails _ _ _ e r) | step_done]. }
  destruct (objects_walk sys (filepath_Join sys [local; "objects"])
              (os_Lstat_tree sys (filepath_Join sys [local; "objects"]) w1))
    as [[largest count] [e|]] eqn:Ewalk; run_unfold.
  { run_cmd. eexists _, OFailedMirror.
    split; [eapply (NM_objects_fails _ _ _ _ _ _ e r); exact Ewalk | step_done]. }
  change (95 * 1024 * 1024) with repack_threshold.
  destruct (repack_threshold <? largest) eqn:Ebig; run_unfold.
  - run_cmd. destruct r as [e|]; run_unfold.
    { run_cmd. eexists _, OFailedMirror.
      split; [eapply (NM_repack_fails _ _ _ _ _ _ e r);
              [exact Ewalk | now apply Z.ltb_lt] | step_done]. }
    run_cmd. destruct r as [e|]; run_unfold.
    { run_cmd. eexists _, OFailedMirror.
      split; [ pose proof (NM_update_fails sys remote local _ _ _ e r Ewalk) as H;
               rewrite Ebig in H; exact H | step_done ]. }
    eexists _, OMirrored.
    split; [ pose proof (NM_succeeds sys remote local _ _ _ Ewalk) as H;
             rewrite Ebig in H; exact H | step_done ].
  - run_cmd. destruct r as [e|]; run_unfold.
    { run_cmd. eexists _, OFailedMirror.
      split; [ pose proof (NM_update_fails sys remote local _ _ _ e r Ewalk) as H;
               rewrite Ebig in H; exact H | step_done ]. }
    eexists _, OMirrored.
    split; [ pose proof (NM_succeeds sys remote local _ _ _ Ewalk) as H;
             rewrite Ebig in H; exact H | step_done ].
Qed.

Lemma repo_step_after_stat stat (s s' : state W) name r tr o :
  repo_step sys stat (emit (EvStat name r) s) s' tr o ->
  repo_step sys stat s s' (EvStat name r :: tr) o.
Proof.
  unfold repo_step, emit; cbn [world heap next trace out].
  intros (Ht & Hw & Hh & Hf & Hn).
  repeat split; try assumption.
  rewrite Ht, <- app_assoc. reflexivity.
Qed.

Lemma process_repo_skipped config source stat repo (s : state W) :
  skip sys source (HTTPURLToRepo repo) = true ->
  repo_step sys stat s (snd (process_repo sys config source stat repo s))
            [] OSkipped.
Proof.
  intros Hskip. unfold process_repo. rewrite Hskip. run_unfold.
  unfold repo_step; cbn [world heap next trace out fold_left].
  split; [now rewrite app_nil_r | split; [reflexivity | split; [ | split ] ] ].
  - now rewrite Nat.eqb_refl.
  - intros q H. apply Nat.eqb_neq in H. now rewrite H.
  - reflexivity.
Qed.

Lemma process_repo_stat_error config source stat repo (s : state W) err :
  skip sys source (HTTPURLToRepo repo) = false ->
  os_Stat sys (local_path sys config source repo) (world s) = inr err ->
  os_IsNotExist err = false ->
  repo_step sys stat s (snd (process_repo sys config source stat repo s))
            [EvStat (local_path sys config source repo) (inr err)] OFailed.
Proof.
  intros Hskip Hstat Hne. unfold process_repo. rewrite Hskip.
  unfold os_Stat_call. run_unfold. rewrite Hstat, Hne. cbn [negb]. run_unfold.
  unfold repo_step; cbn [world heap next trace out fold_left replay].
  split; [reflexivity | split; [reflexivity | split; [ | split ] ] ].
  - now rewrite Nat.eqb_refl.
  - intros q H. apply Nat.eqb_neq in H. now rewrite H.
  - reflexivity.
Qed.

Lemma process_repo_absent config source stat repo (s : state W) err :
  skip sys source (HTTPURLToRepo repo) = false ->
  os_Stat sys (local_path sys config source repo) (world s) = inr err ->
  os_IsNotExist err = true ->
  exists tr o,
    new_mirror_run sys (HTTPURLToRepo repo) (local_path sys config source repo)
                   tr o /\
    repo_step sys stat s (snd (process_repo sys config source stat repo s))
              (EvStat (local_path sys config source repo) (inr err) :: tr) o.
Proof.
  intros Hskip Hstat Hne. unfold process_repo. rewrite Hskip.
  unfold os_Stat_call. unfold bind at 1. rewrite Hstat, Hne. cbn [negb].
  destruct (mirror_new_run (HTTPURLToRepo repo)
              (local_path sys config source repo) stat
              (emit (EvStat (local_path sys config source repo) (inr err)) s))
    as (tr & o & Hrun & Hstep).
  exists tr, o. split; [exact Hrun | now apply repo_step_after_stat].
Qed.

Lemma process_repo_present config source stat repo (s : state W) fi :
  skip sys source (HTTPURLToRepo repo) = false ->
  os_Stat sys (local_path sys config source repo) (world s) = inl fi ->
  exists tr o,
    existing_mirror_run (local_path sys config source repo) tr o /\
    repo_step sys stat s (snd (process_repo sys config source stat repo s))
              (EvStat (local_path sys config source repo) (inl fi) :: tr) o.
Proof.
  intros Hskip Hstat. unfold process_repo. rewrite Hskip.
  unfold os_Stat_call. unfold bind at 1. rewrite Hstat.
  destruct (mirror_existing_run (HTTPURLToRepo repo)
              (local_path sys config source repo) stat
              (emit (EvStat (local_path sys config source repo) (inl fi)) s))
    as (tr & o & Hrun & Hstep).
  exists tr, o. split; [exact Hrun | now apply repo_step_after_stat].
Qed.

(** Every iteration ends in exactly one outcome. *)
Lemma process_repo_step config source stat repo (s : state W) :
  exists tr o,
    repo_step sys stat s (snd (process_repo sys config source stat repo s)) tr o.
Proof.
  destruct (skip sys source (HTTPURLToRepo repo)) eqn:Hskip.
  - eexists _, _. now apply process_repo_skipped.
  - destruct (os_Stat sys (local_path sys config source repo) (world s))
      as [fi|err] eqn:Hstat.
    + destruct (process_repo_present config source stat repo s fi Hskip Hstat)
        as (tr & o & _ & H).
      eexists _, _. exact H.
    + destruct (os_IsNotExist err) eqn:Hne.
      * destruct (process_repo_absent config source stat repo s err
                    Hskip Hstat Hne) as (tr & o & _ & H).
        eexists _, _. exact H.
      * eexists _, _. eapply process_repo_stat_error; eassumption.
Qed.
End EngineLemmas.

(** ** The loops *)

Lemma incr_neq x : incr x <> x.
Proof.
  unfold incr, wrap64. intros H.
  pose proof (Z.mod_pos_bound (x + 1 + 2 ^ 63) (2 ^ 64) ltac:(lia)) as Hb.
  assert (Hx : 0 <= x + 2 ^ 63 < 2 ^ 64) by lia.
  assert (Hm : (x + 1 + 2 ^ 63) mod 2 ^ 64 = x + 2 ^ 63) by lia.
  clear H Hb.
  destruct (Z.eq_dec (x + 2 ^ 63) (2 ^ 64 - 1)) as [E|E].
  - replace (x + 1 + 2 ^ 63) with (2 ^ 64) in Hm by lia.
    rewrite Z.mod_same in Hm by lia. lia.
  - rewrite Z.mod_small in Hm by lia. lia.
Qed.

Lemma bump_changes_only o o' st :
  counter o' (bump o st) <> counter o' st <-> o' = o.
Proof.
  split.
  - intros H. destruct o, o'; cbn in H; congruence.
  - intros ->. destruct o; cbn; apply incr_neq.
Qed.

Section LoopLemmas.
Context {W : Type} (sys : Sys W).

(** The listing touches neither the store nor the log. *)
Lemma getRepoPage_store source page perPage (s : state W) :
  same_store s (snd (getRepoPage sys source page perPage s)).
Proof.
  unfold getRepoPage, same_store.
  destruct (http_NewRequest sys "GET" (page_url source page perPage))
    as [req|err]; [ | now cbn].
  unfold bind, Do.
  match goal with
  | |- context [client_Do sys ?r ?w] =>
    destruct (client_Do sys r w) as [[resp|err] w']
  end; cbn [snd fst].
  - destruct (json_Decode_Repos sys resp); now cbn.
  - now cbn.
Qed.

Lemma getRepo_loop_store fuel source repos page perPage (s : state W) :
  same_store s (snd (getRepo_loop sys fuel source repos page perPage s)).
Proof.
  revert repos page s.
  induction fuel as [|fuel IH]; intros repos page s; cbn [getRepo_loop].
  - now cbn.
  - unfold bind.
    pose proof (getRepoPage_store source page perPage s) as Hp.
    destruct (getRepoPage sys source page perPage s) as [[pageRepos err] s1].
    cbn [snd] in Hp. destruct err as [err|].
    + exact Hp.
    + destruct (Nat.eqb (List.length pageRepos) 0).
      * exact Hp.
      * specialize (IH (repos ++ pageRepos) (incr page) s1).
        destruct Hp as (H1 & H2 & H3), IH as (I1 & I2 & I3).
        unfold same_store. now rewrite I1, I2, I3.
Qed.

(** The listing makes requests and no other call. *)
Lemma getRepoPage_trace source page perPage (s : state W) :
  exists tr,
    trace (snd (getRepoPage sys source page perPage s)) = trace s ++ tr /\
    forallb is_fetch tr = true.
Proof.
  unfold getRepoPage.
  destruct (http_NewRequest sys "GET" (page_url source page perPage))
    as [req|err]; [ | exists []; cbn; now rewrite app_nil_r].
  unfold bind, Do, emit.
  match goal with
  | |- context [client_Do sys ?r ?w] =>
    destruct (client_Do sys r w) as [[resp|err] w']
  end; cbn [snd fst].
  - destruct (json_Decode_Repos sys resp); eexists [_]; now cbn.
  - eexists [_]; now cbn.
Qed.

Lemma getRepo_loop_trace fuel source repos page perPage (s : state W) :
  exists tr,
    trace (snd (getRepo_loop sys fuel source repos page perPage s))
    = trace s ++ tr /\
    forallb is_fetch tr = true.
Proof.
  revert repos page s.
  induction fuel as [|fuel IH]; intros repos page s; cbn [getRepo_loop].
  - exists []. cbn. now rewrite app_nil_r.
  - unfold bind.
    destruct (getRepoPage_trace source page perPage s) as (tr1 & Ht1 & Hf1).
    destruct (getRepoPage sys source page perPage s) as [[pageRepos err] s1].
    cbn [snd] in Ht1. destruct err as [err|].
    + exists tr1. now cbn.
    + destruct (Nat.eqb (List.length pageRepos) 0).
      * exists tr1. now cbn.
      * destruct (IH (repos ++ pageRepos) (incr page) s1) as (tr2 & Ht2 & Hf2).
        exists (tr1 ++ tr2). rewrite Ht2, Ht1, app_assoc.
        split; [reflexivity | ]. rewrite forallb_app, Hf1, Hf2. reflexivity.
Qed.

(** A source whose listing fails: its fresh cell stays as allocated and the
    state is the one the listing left, with one more line in the log. *)
Lemma process_source_listing_fails fuel config stats source (s : state W)
      repos err s_l :
  getRepo sys fuel source (snd (new (new_Stat source) s))
  = (Some (repos, Some err), s_l) ->
  process_source sys fuel config stats source s
  = (Some (stats ++ [next s]),
     mkState (world s_l) (heap s_l) (next s_l) (trace s_l)
             (out s_l ++ ["Failed to get source [" +++ Source_String source +++
                          "] repos. error:'" +++ Error err +++ "'"])).
Proof.
  intros Hl. unfold process_source, bind, new, log_Printf, ret.
  cbn [fst snd] in *. unfold new in Hl. cbn [snd] in Hl. rewrite Hl.
  reflexivity.
Qed.

(** The inner loop: one outcome per repository. *)
Lemma process_repos_run config source stat repos (s : state W) :
  let s' := snd (process_repos sys config source stat repos s) in
  next s' = next s /\
  (forall q, q <> stat -> heap s' q = heap s q) /\
  Stat_Source (heap s' stat) = Stat_Source (heap s stat) /\
  Repos (heap s' stat) = Repos (heap s stat) /\
  (counters_nonneg (heap s stat) ->
   tally (heap s stat) + Z.of_nat (List.length repos) <= int_max ->
   counters_nonneg (heap s' stat) /\
   tally (heap s' stat) = tally (heap s stat) + Z.of_nat (List.length repos)).
Proof.
  revert s. induction repos as [|repo repos IH]; intros s.
  - cbn [process_repos ret snd]. cbv zeta.
    do 4 (split; [reflexivity | ]).
    intros Hnn _. split; [exact Hnn | cbn [List.length]; lia].
  - cbn [process_repos]. unfold bind.
    destruct (process_repo_step sys config source stat repo s)
      as (tr & o & _ & _ & Hh & Hf & Hn).
    destruct (process_repo sys config source stat repo s) as [[] s1].
    cbn [snd] in Hh, Hf, Hn.
    specialize (IH s1). cbv zeta in IH.
    destruct IH as (In_ & If & Is & Ir & It).
    cbv zeta. split; [congruence | ].
    split; [intros q Hq; rewrite If, Hf by exact Hq; reflexivity | ].
    split; [now rewrite Is, Hh, bump_keeps_Source | ].
    split; [now rewrite Ir, Hh, bump_keeps_Repos | ].
    intros Hnn Hle. cbn [List.length] in Hle.
    destruct (tally_bump o (heap s stat) Hnn) as (Hnn1 & Ht1);
      [unfold int_max in *; lia | ].
    rewrite <- Hh in Hnn1, Ht1.
    destruct (It Hnn1) as (Hnn2 & Ht2); [lia | ].
    split; [exact Hnn2 | ]. rewrite Ht2, Ht1. cbn [List.length]. lia.
Qed.

(** One source: its cell is the next free one, and no other cell changes. *)
Lemma process_source_run fuel config stats source (s : state W) :
  let s1 := snd (new (new_Stat source) s) in
  let p := process_source sys fuel config stats source s in
  match fst (getRepo sys fuel source s1) with
  | None => fst p = None
  | Some (repos, oerr) =>
    fst p = Some (stats ++ [next s]) /\
    next (snd p) = S (next s) /\
    (forall q, q <> next s -> heap (snd p) q = heap s q) /\
    Stat_Source (heap (snd p) (next s)) = source /\
    match oerr with
    | Some _ => heap (snd p) (next s) = new_Stat source
    | None =>
      Repos (heap (snd p) (next s)) = repos /\
      (Z.of_nat (List.length repos) <= int_max ->
       counters_nonneg (heap (snd p) (next s)) /\
       tally (heap (snd p) (next s)) = Z.of_nat (List.length repos))
    end
  end.
Proof.
  cbv zeta. unfold process_source, bind, new, load, store, log_Printf, ret.
  cbn [fst snd heap next out world trace].
  match goal with
  | |- context [getRepo sys fuel source ?st] =>
    pose proof (getRepo_loop_store fuel source [] 1 50 st) as Hs;
    fold (getRepo sys fuel source st) in Hs;
    destruct (getRepo sys fuel source st) as [r s2]
  end.
  destruct Hs as (Hh & Hn & Ho). cbn [fst snd heap next out] in *.
  destruct r as [[repos [err|]]|]; [ | | reflexivity];
    cbn [fst snd heap next out].
  - rewrite Hh, Hn. cbn beta. rewrite Nat.eqb_refl.
    repeat split.
    intros q Hq. apply Nat.eqb_neq in Hq. now rewrite Hq.
  - match goal with
    | |- context [process_repos sys config source ?a repos ?st] =>
      pose proof (process_repos_run config source a repos st) as Hr;
      destruct (process_repos sys config source a repos st) as [[] s3]
    end.
    cbv zeta in Hr. cbn [fst snd heap next] in *.
    destruct Hr as (Rn & Rf & Rs & Rr & Rt).
    rewrite Hh in Rs, Rr, Rt, Rf. cbn beta in Rs, Rr, Rt, Rf.
    rewrite !Nat.eqb_refl in Rs, Rr, Rt.
    cbn [set_Repos Stat_Source Repos new_Stat] in Rs, Rr.
    split; [reflexivity | ].
    split; [congruence | ].
    split.
    { intros q Hq. rewrite Rf by exact Hq.
      apply Nat.eqb_neq in Hq. now rewrite !Hq. }
    split; [exact Rs | ].
    split; [exact Rr | ].
    intros Hle. apply Rt.
    + unfold counters_nonneg; cbn. repeat split; apply Z.le_refl.
    + change (tally (set_Repos (new_Stat source) repos)) with 0. lia.
Qed.

Lemma process_sources_app fuel config pre post stats (s : state W) :
  process_sources sys fuel config stats (pre ++ post) s
  = match process_sources sys fuel config stats pre s with
    | (Some stats1, s1) => process_sources sys fuel config stats1 post s1
    | (None, s1) => (None, s1)
    end.
Proof.
  revert stats s. induction pre as [|source pre IH]; intros stats s.
  - reflexivity.
  - cbn [app process_sources]. unfold bind.
    destruct (process_source sys fuel config stats source s) as [[stats1|] s1].
    + apply IH.
    + reflexivity.
Qed.

(** The outer loop: the cells are allocated in the order of the sources, and
    a cell is not touched again once its source is done. *)
Lemma process_sources_run fuel config sources :
  listings_end sys fuel sources ->
  forall stats (s : state W),
    let p := process_sources sys fuel config stats sources s in
    fst p = Some (stats ++ seq (next s) (List.length sources)) /\
    next (snd p) = (next s + List.length sources)%nat /\
    (forall q, (q < next s)%nat -> heap (snd p) q = heap s q) /\
    Forall2 (fun source q => cell_post source (heap (snd p) q))
            sources (seq (next s) (List.length sources)).
Proof.
  induction sources as [|source sources IH]; intros Hend stats s; cbv zeta.
  - cbn [process_sources ret fst snd List.length seq].
    rewrite app_nil_r, Nat.add_0_r. repeat split. constructor.
  - cbn [process_sources]. unfold bind.
    pose proof (process_source_run fuel config stats source s) as Hp.
    cbv zeta in Hp.
    destruct (fst (getRepo sys fuel source (snd (new (new_Stat source) s))))
      as [[repos oerr]|] eqn:El;
      [ | exfalso; revert El; apply Hend; now left ].
    destruct (process_source sys fuel config stats source s) as [r s1].
    cbn [fst snd] in Hp. destruct Hp as (-> & Hn1 & Hf1 & Hsrc & Hcell).
    assert (Hend' : listings_end sys fuel sources).
    { intros x Hx. apply Hend. now right. }
    specialize (IH Hend' (stats ++ [next s]) s1). cbv zeta in IH.
    destruct IH as (Ir & In_ & If & Ic).
    rewrite Hn1 in Ir, In_, If, Ic.
    split; [ | split; [ | split ] ].
    + rewrite Ir, <- app_assoc. reflexivity.
    + rewrite In_. cbn [List.length]. lia.
    + intros q Hq. rewrite If by lia. apply Hf1. lia.
    + cbn [List.length seq]. constructor; [ | exact Ic].
      rewrite If by lia. split; [exact Hsrc | ].
      destruct oerr as [err|].
      * rewrite Hcell. intros _. split; [ | reflexivity].
        unfold counters_nonneg; cbn. repeat split; apply Z.le_refl.
      * destruct Hcell as (Hr & Ht). rewrite Hr. exact Ht.
Qed.

Lemma cells_in_order (h : addr -> Stat) sources qs :
  Forall2 (fun source q => cell_post source (h q)) sources qs ->
  map (fun q => Stat_Source (h q)) qs = sources.
Proof.
  induction 1 as [|source q sources qs [Hs _] _ IH]; cbn [map].
  - reflexivity.
  - now rewrite Hs, IH.
Qed.

(** The final loop logs one line per cell, in the order of the slice. *)
Lemma report_run stats (s : state W) :
  let s' := snd (report stats s) in
  out s' = out s ++ map (fun q => report_line (heap s q)) stats /\
  heap s' = heap s /\ world s' = world s /\ trace s' = trace s /\
  next s' = next s.
Proof.
  revert s. induction stats as [|stat stats IH]; intros s; cbv zeta.
  - cbn [report ret snd map]. now rewrite app_nil_r.
  - cbn [report]. unfold bind, load, log_Printf.
    specialize (IH (mkState (world s) (heap s) (next s) (trace s)
                            (out s ++ [report_line (heap s stat)]))).
    cbv zeta in IH. cbn [heap world trace next out] in IH.
    destruct IH as (Io & Ih & Iw & It & In_).
    rewrite Io, <- app_assoc. cbn [map app]. auto.
Qed.

(** The cell of one source at the end of the batch, against what its listing
    returned when its turn came. *)
Lemma process_sources_cell fuel config pre source post (s0 : state W) :
  listings_end sys fuel (pre ++ source :: post) ->
  exists stats_pre s_pre repos oerr s_l stats s_end,
    process_sources sys fuel config [] pre s0 = (Some stats_pre, s_pre) /\
    getRepo sys fuel source (snd (new (new_Stat source) s_pre))
    = (Some (repos, oerr), s_l) /\
    process_sources sys fuel config [] (pre ++ source :: post) s0
    = (Some stats, s_end) /\
    nth_error stats (List.length pre) = Some (next s_pre) /\
    Stat_Source (heap s_end (next s_pre)) = source /\
    match oerr with
    | None =>
      Repos (heap s_end (next s_pre)) = repos /\
      (Z.of_nat (List.length repos) <= int_max ->
       counters_nonneg (heap s_end (next s_pre)) /\
       tally (heap s_end (next s_pre)) = Z.of_nat (List.length repos))
    | Some _ => heap s_end (next s_pre) = new_Stat source
    end.
Proof.
  intros Hend.
  assert (Hend_pre : listings_end sys fuel pre).
  { intros x Hx. apply Hend. apply in_or_app. now left. }
  assert (Hend_post : listings_end sys fuel post).
  { intros x Hx. apply Hend. apply in_or_app. right. now right. }
  destruct (process_sources_run fuel config pre Hend_pre [] s0)
    as (Hr_pre & Hn_pre & _ & _).
  destruct (process_sources sys fuel config [] pre s0) as [r s_pre] eqn:Epre.
  cbn [fst snd app] in Hr_pre, Hn_pre. subst r.
  pose proof (process_source_run fuel config
                (seq (next s0) (List.length pre)) source s_pre) as Hsrc.
  cbv zeta in Hsrc.
  destruct (getRepo sys fuel source (snd (new (new_Stat source) s_pre)))
    as [res s_l] eqn:El.
  cbn [fst] in Hsrc.
  destruct res as [[repos oerr]|].
  2:{ exfalso.
      assert (Hin : In source (pre ++ source :: post))
        by (apply in_or_app; right; now left).
      apply (Hend source Hin (snd (new (new_Stat source) s_pre))).
      now rewrite El. }
  destruct (process_source sys fuel config (seq (next s0) (List.length pre))
                           source s_pre) as [r1 s_src] eqn:Esrc.
  cbn [fst snd] in Hsrc. destruct Hsrc as (-> & Hn_src & _ & Hsource & Hcell).
  destruct (process_sources_run fuel config post Hend_post
              (seq (next s0) (List.length pre) ++ [next s_pre]) s_src)
    as (Hr_post & _ & Hf_post & _).
  destruct (process_sources sys fuel config
              (seq (next s0) (List.length pre) ++ [next s_pre]) post s_src)
    as [r s_end] eqn:Epost.
  cbn [fst snd] in Hr_post, Hf_post. subst r.
  assert (Hkeep : heap s_end (next s_pre) = heap s_src (next s_pre))
    by (apply Hf_post; lia).
  eexists _, s_pre, repos, oerr, s_l, _, s_end.
  split; [reflexivity | ]. split; [exact El | ].
  split.
  { rewrite process_sources_app, Epre. cbn [process_sources]. unfold bind.
    rewrite Esrc. exact Epost. }
  split.
  { rewrite <- app_assoc, nth_error_app2; rewrite length_seq; [ | lia].
    now rewrite Nat.sub_diag. }
  rewrite Hkeep. split; [exact Hsource | exact Hcell].
Qed.
End LoopLemmas.

(** * The decision engine *)





(** C6.  When [os.Stat] fails with an error that is not a not-found error,
    the iteration makes no further call at all, leaves the world as it is and
    does [Failed++]; no other counter or cell changes. *)
Theorem stat_error_counts_failed {W} (sys : Sys W) config source stat repo
        (s : state W) err :
  skip sys source (HTTPURLToRepo repo) = false ->
  os_Stat sys (local_path sys config source repo) (world s) = inr err ->
  os_IsNotExist err = false ->
  let local := local_path sys config source repo in
  let s' := snd (process_repo sys config source stat repo s) in
  trace s' = trace s ++ [EvStat local (inr err)] /\
  existsb is_maintenance [EvStat local (inr err)] = false /\
  world s' = world s /\
  heap s' stat = bump OFailed (heap s stat) /\
  (forall q, q <> stat -> heap s' q = heap s q) /\
  (int_min <= Failed (heap s stat) < int_max ->
   Failed (heap s' stat) = Failed (heap s stat) + 1) /\
  (forall o', o' <> OFailed ->
              counter o' (heap s' stat) = counter o' (heap s stat)).
Proof.
  intros Hskip Hstat Hne local s'.
  destruct (process_repo_stat_error sys config source stat repo s err
              Hskip Hstat Hne) as (Ht & Hw & Hh & Hf & Hn).
  fold s' in Ht, Hw, Hh, Hf. fold local in Ht, Hw.
  split; [exact Ht | ].
  split; [reflexivity | ].
  split; [exact Hw | ].
  split; [exact Hh | ].
  split; [exact Hf | ].
  split.
  - intros Hrange. rewrite Hh. now apply (counter_bump_same OFailed).
  - intros o' Ho'. rewrite Hh. now apply counter_bump_other.
Qed.

(** A local path that may not be looked at. *)
Lemma stat_error_counts_failed_witness :
  let sys := Demo.sys (Demo.with_denied [Demo.api_local] Demo.quiet) in
  let s := Demo.in_loop Demo.gitlab [] in
  let s' := snd (process_repo sys Demo.config Demo.gitlab 0%nat Demo.api s) in
  trace s' = trace s ++ [EvStat Demo.api_local (inr Demo.EACCES)] /\
  existsb is_maintenance [EvStat Demo.api_local (inr Demo.EACCES)] = false /\
  world s' = world s /\
  heap s' 0%nat = bump OFailed (heap s 0%nat) /\
  (forall q, q <> 0%nat -> heap s' q = heap s q) /\
  (int_min <= Failed (heap s 0%nat) < int_max ->
   Failed (heap s' 0%nat) = Failed (heap s 0%nat) + 1) /\
  (forall o', o' <> OFailed ->
              counter o' (heap s' 0%nat) = counter o' (heap s 0%nat)).
Proof.
  apply (stat_error_counts_failed
           (Demo.sys (Demo.with_denied [Demo.api_local] Demo.quiet))
           Demo.config Demo.gitlab 0%nat Demo.api
           (Demo.in_loop Demo.gitlab []) Demo.EACCES);
    reflexivity.
Defined.

(** C10.  For a repository that is not filtered out, whenever [os.Stat]
    succeeds the iteration is the existing-mirror sequence (disableAutoGC,
    then update), whatever the [FileInfo] says about the entry: a regular
    file is treated like a directory.  A clone, the first call of the
    new-mirror sequence, is made exactly when [os.Stat] failed with a
    not-found error. *)
Theorem stat_success_means_existing_mirror {W} (sys : Sys W) config source stat
        repo (s : state W) :
  skip sys source (HTTPURLToRepo repo) = false ->
  let remote := HTTPURLToRepo repo in
  let local := local_path sys config source repo in
  let s' := snd (process_repo sys config source stat repo s) in
  (forall fi,
      os_Stat sys local (world s) = inl fi ->
      process_repo sys config source stat repo s
      = mirror_existing sys remote local stat (emit (EvStat local (inl fi)) s) /\
      exists tr o,
        trace s' = trace s ++ EvStat local (inl fi) :: tr /\
        existing_mirror_run local tr o /\
        existsb is_clone tr = false) /\
  (exists tr,
      trace s' = trace s ++ tr /\
      (existsb is_clone tr = true <->
       exists err, os_Stat sys local (world s) = inr err /\
                   os_IsNotExist err = true)).
Proof.
  intros Hskip remote local s'. split.
  - intros fi Hstat. split.
    + unfold process_repo. rewrite Hskip. fold local remote.
      unfold os_Stat_call. unfold bind at 1. rewrite Hstat. reflexivity.
    + destruct (process_repo_present sys config source stat repo s fi
                  Hskip Hstat) as (tr & o & Hrun & Ht & _).
      destruct (existing_mirror_run_calls _ _ _ Hrun)
        as (_ & _ & Hcl & _).
      exists tr, o. auto.
  - destruct (os_Stat sys local (world s)) as [fi|err] eqn:Hstat.
    + destruct (process_repo_present sys config source stat repo s fi
                  Hskip Hstat) as (tr & o & Hrun & Ht & _).
      destruct (existing_mirror_run_calls _ _ _ Hrun)
        as (_ & _ & Hcl & _).
      exists (EvStat local (inl fi) :: tr). split; [exact Ht | ].
      cbn [existsb is_clone orb]. rewrite Hcl.
      split; [discriminate | intros (err & Herr & _); discriminate Herr].
    + destruct (os_IsNotExist err) eqn:Hne.
      * destruct (process_repo_absent sys config source stat repo s err
                    Hskip Hstat Hne) as (tr & o & Hrun & Ht & _).
        exists (EvStat local (inr err) :: tr). split; [exact Ht | ].
        cbn [existsb is_clone orb].
        rewrite (new_mirror_run_has_clone _ _ _ _ _ Hrun).
        split; [intros _; exists err; auto | reflexivity].
      * destruct (process_repo_stat_error sys config source stat repo s err
                    Hskip Hstat Hne) as (Ht & _).
        exists [EvStat local (inr err)]. split; [exact Ht | ].
        cbn [existsb is_clone orb].
        split; [discriminate | ].
        intros (err' & Herr & Hne'). injection Herr as <-. congruence.
Qed.

(** A regular file sits where the mirror should be. *)
Lemma stat_success_means_existing_mirror_witness :
  let sys := Demo.sys (Demo.with_plain [Demo.api_local] Demo.quiet) in
  let s := Demo.in_loop Demo.gitlab [Demo.api_local] in
  let s' := snd (process_repo sys Demo.config Demo.gitlab 0%nat Demo.api s) in
  os_Stat sys Demo.api_local (world s) = inl (mkFileInfo 0 false) /\
  (forall fi,
      os_Stat sys Demo.api_local (world s) = inl fi ->
      process_repo sys Demo.config Demo.gitlab 0%nat Demo.api s
      = mirror_existing sys (HTTPURLToRepo Demo.api) Demo.api_local 0%nat
                        (emit (EvStat Demo.api_local (inl fi)) s) /\
      exists tr o,
        trace s' = trace s ++ EvStat Demo.api_local (inl fi) :: tr /\
        existing_mirror_run Demo.api_local tr o /\
        existsb is_clone tr = false) /\
  (exists tr,
      trace s' = trace s ++ tr /\
      (existsb is_clone tr = true <->
       exists err, os_Stat sys Demo.api_local (world s) = inr err /\
                   os_IsNotExist err = true)).
Proof.
  split; [reflexivity | ].
  apply (stat_success_means_existing_mirror
           (Demo.sys (Demo.with_plain [Demo.api_local] Demo.quiet))
           Demo.config Demo.gitlab 0%nat Demo.api
           (Demo.in_loop Demo.gitlab [Demo.api_local])).
  reflexivity.
Defined.

(** C4.  In a new-mirror sequence a repack is called exactly when the
    inspection after the clone went through and measured a largest pack of
    more than [95*1024*1024] bytes: one byte above the bound triggers it, the
    bound itself does not; and no repack comes after the update.  In an
    existing-mirror sequence there is neither a walk of the object store nor
    a repack. *)
Theorem repack_iff_above_threshold {W} (sys : Sys W) config source stat repo
        (s : state W) :
  skip sys source (HTTPURLToRepo repo) = false ->
  let remote := HTTPURLToRepo repo in
  let local := local_path sys config source repo in
  let s' := snd (process_repo sys config source stat repo s) in
  (forall err,
      os_Stat sys local (world s) = inr err -> os_IsNotExist err = true ->
      exists tr o,
        trace s' = trace s ++ EvStat local (inr err) :: tr /\
        new_mirror_run sys remote local tr o /\
        (existsb is_repack tr = true <->
         exists largest count,
           inspected sys tr = Some (largest, count, None) /\
           95 * 1024 * 1024 < largest) /\
        (forall count,
            inspected sys tr = Some (95 * 1024 * 1024 + 1, count, None) ->
            existsb is_repack tr = true) /\
        (forall count,
            inspected sys tr = Some (95 * 1024 * 1024, count, None) ->
            existsb is_repack tr = false) /\
        (forall pre ev post,
            tr = pre ++ ev :: post -> is_update ev = true ->
            existsb is_repack post = false)) /\
  (forall fi,
      os_Stat sys local (world s) = inl fi ->
      exists tr o,
        trace s' = trace s ++ EvStat local (inl fi) :: tr /\
        existing_mirror_run local tr o /\
        existsb is_repack tr = false /\
        existsb is_walk tr = false).
Proof.
  intros Hskip remote local s'. split.
  - intros err Hstat Hne.
    destruct (process_repo_absent sys config source stat repo s err
                Hskip Hstat Hne) as (tr & o & Hrun & Ht & _).
    pose proof (new_mirror_run_repack sys _ _ _ _ Hrun) as Hiff.
    exists tr, o.
    split; [exact Ht | ]. split; [exact Hrun | ].
    split; [exact Hiff | ].
    split; [ | split ].
    + intros count Hm. apply Hiff. exists (95 * 1024 * 1024 + 1), count.
      split; [exact Hm | unfold repack_threshold; lia].
    + intros count Hm.
      destruct (existsb is_repack tr) eqn:E; [ | reflexivity].
      destruct (proj1 Hiff eq_refl) as (l & c & Hm' & Hlt).
      rewrite Hm in Hm'. injection Hm' as <- _.
      unfold repack_threshold in Hlt. lia.
    + apply no_repack_after_update.
      eapply new_mirror_run_order; exact Hrun.
  - intros fi Hstat.
    destruct (process_repo_present sys config source stat repo s fi
                Hskip Hstat) as (tr & o & Hrun & Ht & _).
    destruct (existing_mirror_run_calls _ _ _ Hrun)
      as (_ & _ & _ & Hrp & Hwk & _).
    exists tr, o. auto.
Qed.

(** Two fresh clones: the largest pack is one byte above the bound in the
    first and exactly at the bound in the second. *)
Lemma repack_iff_above_threshold_witness :
  let sys1 := Demo.sys (Demo.with_tree
                          (inl (Demo.store_with_pack (95 * 1024 * 1024 + 1)))
                          Demo.quiet) in
  let sys0 := Demo.sys (Demo.with_tree
                          (inl (Demo.store_with_pack (95 * 1024 * 1024)))
                          Demo.quiet) in
  let s := Demo.in_loop Demo.gitlab [] in
  existsb is_repack
    (trace (snd (process_repo sys1 Demo.config Demo.gitlab 0%nat Demo.api s)))
  = true /\
  existsb is_repack
    (trace (snd (process_repo sys0 Demo.config Demo.gitlab 0%nat Demo.api s)))
  = false.
Proof.
  intros sys1 sys0 s. split.
  - destruct (proj1 (repack_iff_above_threshold sys1 Demo.config Demo.gitlab
                       0%nat Demo.api s eq_refl) Demo.ENOENT eq_refl eq_refl)
      as (tr & o & Ht & _ & _ & Hplus & _).
    assert (Hi : inspected sys1
                   (trace (snd (process_repo sys1 Demo.config Demo.gitlab
                                             0%nat Demo.api s)))
                 = Some (95 * 1024 * 1024 + 1, 3, None))
      by (vm_compute; reflexivity).
    rewrite Ht in Hi |- *. cbn [trace s Demo.in_loop app inspected] in Hi.
    cbn [trace s Demo.in_loop app existsb is_repack is_git_C orb].
    exact (Hplus 3 Hi).
  - destruct (proj1 (repack_iff_above_threshold sys0 Demo.config Demo.gitlab
                       0%nat Demo.api s eq_refl) Demo.ENOENT eq_refl eq_refl)
      as (tr & o & Ht & _ & _ & _ & Hat & _).
    assert (Hi : inspected sys0
                   (trace (snd (process_repo sys0 Demo.config Demo.gitlab
                                             0%nat Demo.api s)))
                 = Some (95 * 1024 * 1024, 3, None))
      by (vm_compute; reflexivity).
    rewrite Ht in Hi |- *. cbn [trace s Demo.in_loop app inspected] in Hi.
    cbn [trace s Demo.in_loop app existsb is_repack is_git_C orb].
    exact (Hat 3 Hi).
Defined.

(** * The filter *)

(** C5.  [skip] answers [true] when a pattern of [Exclude] is the URL itself
    or matches it as a glob; otherwise [true] when [Include] is not empty and
    none of its patterns is or matches the URL; otherwise [false].  It is a
    total function to [bool]: an error of [filepath.Match] is never passed
    on, and a pattern on which [filepath.Match] reports an error counts for
    nothing unless it is the URL itself. *)
Theorem skip_spec {W} (sys : Sys W) source remote :
  (pattern_hit sys (Exclude source) remote -> skip sys source remote = true) /\
  (~ pattern_hit sys (Exclude source) remote ->
   Include source <> [] ->
   ~ pattern_hit sys (Include source) remote ->
   skip sys source remote = true) /\
  (~ pattern_hit sys (Exclude source) remote ->
   Include source = [] \/ pattern_hit sys (Include source) remote ->
   skip sys source remote = false) /\
  (skip sys source remote = true <->
   pattern_hit sys (Exclude source) remote \/
   (Include source <> [] /\ ~ pattern_hit sys (Include source) remote)) /\
  (forall v s matched err,
      filepath_Match sys v remote = (matched, Some err) -> v <> remote ->
      matches sys (v :: s) remote = matches sys s remote).
Proof.
  assert (Hlen : forall l : list string,
             (0 <? Z.of_nat (List.length l)) = true <-> l <> []).
  { intros [|x l]; cbn [List.length]; split; try congruence.
    - discriminate.
    - intros _. apply Z.ltb_lt. lia. }
  assert (Hiff : skip sys source remote = true <->
                 pattern_hit sys (Exclude source) remote \/
                 (Include source <> [] /\
                  ~ pattern_hit sys (Include source) remote)).
  { unfold skip.
    destruct (matches sys (Exclude source) remote) eqn:Eex.
    - apply matches_spec in Eex. split; auto.
    - apply matches_false_spec in Eex.
      destruct (0 <? Z.of_nat (List.length (Include source))) eqn:Elen;
        cbn [andb].
      + apply Hlen in Elen.
        destruct (matches sys (Include source) remote) eqn:Ein; cbn [negb].
        * apply matches_spec in Ein. split; [discriminate | ].
          intros [H|[_ H]]; contradiction.
        * apply matches_false_spec in Ein. split; auto.
      + split; [discriminate | ].
        intros [H|[H _]]; [contradiction | ].
        apply Hlen in H. congruence. }
  split; [ | split; [ | split; [ | split ] ] ].
  - intros H. apply Hiff. now left.
  - intros _ Hne Hin. apply Hiff. right. now split.
  - intros Hex Hin.
    apply Bool.not_true_is_false. intros E.
    apply Hiff in E. destruct E as [E|[E1 E2]]; [contradiction | ].
    destruct Hin as [Hin|Hin]; contradiction.
  - exact Hiff.
  - intros v s matched err Hm Hneq. cbn [matches].
    destruct (String.eqb_spec v remote) as [Heq|_]; [contradiction | ].
    rewrite Hm. reflexivity.
Qed.

(** The host of the small system excludes its archive; the second repository
    is in it, the first is not. *)
Lemma skip_spec_witness :
  skip (Demo.sys Demo.quiet) Demo.gitlab (HTTPURLToRepo Demo.old) = true /\
  skip (Demo.sys Demo.quiet) Demo.gitlab (HTTPURLToRepo Demo.api) = false.
Proof.
  split.
  - apply (proj1 (skip_spec (Demo.sys Demo.quiet) Demo.gitlab
                            (HTTPURLToRepo Demo.old))).
    exists "https://gitlab.example.com/*/archived/*".
    split; [now left | right; reflexivity].
  - reflexivity.
Defined.

(** C9.  [matches] compares the pattern with the URL before it asks
    [filepath.Match]: a pattern that is the URL itself matches whatever
    [filepath.Match] makes of it, a malformed glob included, and a repository
    whose URL is one of the exclude patterns is skipped. *)
Theorem exact_pattern_matches_before_glob {W} (sys : Sys W) s e :
  In e s ->
  matches sys s e = true /\
  (forall s', matches sys (e :: s') e = true) /\
  (forall source, Exclude source = s -> skip sys source e = true).
Proof.
  intros Hin.
  assert (Hm : matches sys s e = true).
  { apply matches_spec. exists e. split; [exact Hin | now left]. }
  split; [exact Hm | split].
  - intros s'. cbn [matches]. now rewrite String.eqb_refl.
  - intros source <-. unfold skip. now rewrite Hm.
Qed.

(** A URL with a bracket, excluded by naming it: as a glob it is malformed. *)
Lemma exact_pattern_matches_before_glob_witness :
  let sys := Demo.sys Demo.quiet in
  let url := "https://gitlab.example.com/team/[legacy.git" in
  filepath_Match sys url url = (false, Some Demo.ErrBadPattern) /\
  matches sys ["*/tmp/*"; url] url = true /\
  (forall s', matches sys (url :: s') url = true) /\
  (forall source, Exclude source = ["*/tmp/*"; url] ->
                  skip sys source url = true).
Proof.
  split; [reflexivity | ].
  apply (exact_pattern_matches_before_glob (Demo.sys Demo.quiet)
           ["*/tmp/*"; "https://gitlab.example.com/team/[legacy.git"]
           "https://gitlab.example.com/team/[legacy.git").
  right; left; reflexivity.
Defined.

(** * The inspection of the pack sizes *)

(** C8, as the code has it.  [objects] walks the tree below the [objects]
    directory of the mirror.  When the walk meets no error, the count it
    returns is the number of entries that are not directories (as an
    [int64]) and the size it returns is the largest among [0] and the sizes
    of the files whose name ends in [.pack]; directories enter neither.  The
    first error met (the root cannot be examined, a directory cannot be read,
    [Info()] fails on a [.pack] file) stops the walk and is returned.  The
    inspection is part of the new-mirror sequence only, and there an error
    of the walk is followed by the removal of the local path and by
    [FailedMirror++]; [Failed] keeps its value. *)
Theorem objects_inspection {W} (sys : Sys W) :
  (forall root n,
      first_error n = None ->
      objects_walk sys root (inl n)
      = (fold_right Z.max 0 (pack_sizes n),
         wrap64 (Z.of_nat (List.length (files n))), None) /\
      (Z.of_nat (List.length (files n)) <= int_max ->
       snd (fst (objects_walk sys root (inl n)))
       = Z.of_nat (List.length (files n))) /\
      In (fold_right Z.max 0 (pack_sizes n)) (0 :: pack_sizes n) /\
      Forall (fun z => z <= fold_right Z.max 0 (pack_sizes n))
             (0 :: pack_sizes n) /\
      Forall (fun d => IsDir d = false) (files n)) /\
  (forall root n err,
      first_error n = Some err ->
      exists largest count,
        objects_walk sys root (inl n) = (largest, count, Some err)) /\
  (forall root err, objects_walk sys root (inr err) = (0, 0, Some err)) /\
  (forall config source stat repo (s : state W) err,
      skip sys source (HTTPURLToRepo repo) = false ->
      os_Stat sys (local_path sys config source repo) (world s) = inr err ->
      os_IsNotExist err = true ->
      let local := local_path sys config source repo in
      let s' := snd (process_repo sys config source stat repo s) in
      exists tr o,
        trace s' = trace s ++ EvStat local (inr err) :: tr /\
        new_mirror_run sys (HTTPURLToRepo repo) local tr o /\
        forall largest count e,
          inspected sys tr = Some (largest, count, Some e) ->
          (exists pre r, tr = pre ++ [ev_remove local r]) /\
          heap s' stat = bump OFailedMirror (heap s stat) /\
          Failed (heap s' stat) = Failed (heap s stat)) /\
  (forall config source stat repo (s : state W) fi,
      skip sys source (HTTPURLToRepo repo) = false ->
      os_Stat sys (local_path sys config source repo) (world s) = inl fi ->
      let local := local_path sys config source repo in
      let s' := snd (process_repo sys config source stat repo s) in
      exists tr,
        trace s' = trace s ++ EvStat local (inl fi) :: tr /\
        inspected sys tr = None).
Proof.
  split; [ | split; [ | split; [ | split ] ] ].
  - intros root n Hok.
    pose proof (walkDir_objects (filepath_Join sys) n root 0 0) as Hw.
    rewrite Hok in Hw.
    assert (Heq : objects_walk sys root (inl n)
                  = (fold_right Z.max 0 (pack_sizes n),
                     wrap64 (Z.of_nat (List.length (files n))), None)).
    { unfold objects_walk. cbn [WalkDir]. rewrite Hw.
      now rewrite fold_left_max_right, iter_incr. }
    split; [exact Heq | ].
    split.
    { intros Hle. rewrite Heq. cbn [fst snd].
      apply wrap64_small. unfold int_min. lia. }
    rewrite <- fold_left_max_right.
    destruct (fold_left_max_spec (pack_sizes n) 0) as (Hin & Hle & Hall).
    split; [exact Hin | ].
    split; [constructor; assumption | apply files_not_dirs].
  - intros root n err Herr.
    pose proof (walkDir_objects (filepath_Join sys) n root 0 0) as Hw.
    rewrite Herr in Hw. destruct Hw as (l & c & Hw).
    exists l, c. unfold objects_walk. cbn [WalkDir]. now rewrite Hw.
  - intros root err. reflexivity.
  - intros config source stat repo s err Hskip Hstat Hne local s'.
    destruct (process_repo_absent sys config source stat repo s err
                Hskip Hstat Hne) as (tr & o & Hrun & Ht & _ & Hh & _).
    exists tr, o. split; [exact Ht | ]. split; [exact Hrun | ].
    intros largest count e Hin.
    destruct (new_mirror_run_inspection_error sys _ _ _ _ _ _ _ Hrun Hin)
      as (-> & Hrm).
    split; [exact Hrm | ].
    fold s' in Hh. split; [exact Hh | ]. now rewrite Hh.
  - intros config source stat repo s fi Hskip Hstat local s'.
    destruct (process_repo_present sys config source stat repo s fi
                Hskip Hstat) as (tr & o & Hrun & Ht & _).
    exists tr. split; [exact Ht | ].
    destruct Hrun; reflexivity.
Qed.

(** The object store of the small system, and a fresh clone whose object
    store cannot be examined. *)
Lemma objects_inspection_witness :
  let sys := Demo.sys (Demo.with_tree (inr Demo.EIO) Demo.quiet) in
  let s := Demo.in_loop Demo.gitlab [] in
  let s' := snd (process_repo sys Demo.config Demo.gitlab 0%nat Demo.api s) in
  objects_walk sys "/srv/mirror/gitlab.example.com/team/api.git/objects"
               (inl (Demo.store_with_pack 2048))
  = (2048, 3, None) /\
  FailedMirror (heap s' 0%nat) = 1 /\
  Failed (heap s' 0%nat) = 0.
Proof.
  intros sys s s'.
  destruct (objects_inspection sys) as (Hok & _ & _ & Hnew & _).
  split.
  - exact (proj1 (Hok "/srv/mirror/gitlab.example.com/team/api.git/objects"
                      (Demo.store_with_pack 2048) eq_refl)).
  - destruct (Hnew Demo.config Demo.gitlab 0%nat Demo.api s Demo.ENOENT
                   eq_refl eq_refl eq_refl) as (tr & o & Ht & _ & Herr).
    assert (Hi : inspected sys (trace s') = Some (0, 0, Some Demo.EIO))
      by (vm_compute; reflexivity).
    fold s' in Ht. rewrite Ht in Hi.
    cbn [trace s Demo.in_loop app inspected] in Hi.
    destruct (Herr 0 0 Demo.EIO Hi) as (_ & Hh & Hf).
    fold s' in Hh, Hf. split.
    + rewrite Hh. reflexivity.
    + rewrite Hf. reflexivity.
Defined.

(** C8 does not hold where it counts the repository as generically failed:
    the walk of a freshly cloned mirror runs into an error, and the
    repository is counted in [FailedMirror] after the removal of its local
    path; [Failed] does not move. *)
Lemma walk_error_is_not_counted_failed :
  let sys := Demo.sys (Demo.with_tree (inr Demo.EIO) Demo.quiet) in
  let s := Demo.in_loop Demo.gitlab [] in
  let s' := snd (process_repo sys Demo.config Demo.gitlab 0%nat Demo.api s) in
  inspected sys (trace s') = Some (0, 0, Some Demo.EIO) /\
  Failed (heap s' 0%nat) <> Failed (heap s 0%nat) + 1 /\
  Failed (heap s' 0%nat) = 0 /\
  FailedMirror (heap s' 0%nat) = 1 /\
  existsb is_remove (trace s') = true.
Proof.
  cbv zeta. split; [vm_compute; reflexivity | ].
  split; [vm_compute; discriminate | ].
  repeat split; vm_compute; reflexivity.
Qed.

(** On a mirror that is already there the object store is not walked at
    all. *)
Example present_mirror_is_not_inspected :
  let sys := Demo.sys Demo.quiet in
  let s := Demo.in_loop Demo.gitlab [Demo.api_local] in
  let s' := snd (process_repo sys Demo.config Demo.gitlab 0%nat Demo.api s) in
  existsb is_walk (trace s') = false /\ Updated (heap s' 0%nat) = 1.
Proof. split; vm_compute; reflexivity. Qed.

(** * The batch *)

(** C3.  Every iteration of the inner loop changes exactly one of the six
    counters of the cell of its source, by [++].  Hence, from a fresh cell,
    the inner loop over [repos] leaves counters whose sum is the number of
    repositories; and when the listings end, the batch ends with one cell per
    source, in the order of the configuration, in which the six counters sum
    to the number of repositories listed for that source (the number fits an
    [int], as every length of a slice does).  The cell of a source holds, as
    [Repos], the very repositories [getRepo] returned when the turn of the
    source came, and its six counters sum to their number; when the listing
    failed it holds none and the six counters are zero. *)
Theorem one_outcome_per_repository {W} (sys : Sys W) fuel config (s0 : state W) :
  listings_end sys fuel (Sources config) ->
  (forall source stat repo (s : state W),
      let s' := snd (process_repo sys config source stat repo s) in
      exists o,
        heap s' stat = bump o (heap s stat) /\
        forall o', counter o' (heap s' stat) <> counter o' (heap s stat)
                   <-> o' = o) /\
  (forall source stat repos (s : state W),
      let s' := snd (process_repos sys config source stat repos s) in
      tally (heap s stat) = 0 -> counters_nonneg (heap s stat) ->
      Z.of_nat (List.length repos) <= int_max ->
      tally (heap s' stat) = Z.of_nat (List.length repos)) /\
  (exists stats s_end,
      process_sources sys fuel config [] (Sources config) s0
      = (Some stats, s_end) /\
      Forall2 (fun source q =>
                 Stat_Source (heap s_end q) = source /\
                 (Z.of_nat (List.length (Repos (heap s_end q))) <= int_max ->
                  Skipped (heap s_end q) + Mirrored (heap s_end q) +
                  Updated (heap s_end q) + Failed (heap s_end q) +
                  FailedMirror (heap s_end q) + FailedUpdate (heap s_end q)
                  = Z.of_nat (List.length (Repos (heap s_end q)))))
              (Sources config) stats) /\
  (forall pre source post,
      Sources config = pre ++ source :: post ->
      exists stats_pre s_pre repos oerr s_l stats s_end,
        process_sources sys fuel config [] pre s0 = (Some stats_pre, s_pre) /\
        getRepo sys fuel source (snd (new (new_Stat source) s_pre))
        = (Some (repos, oerr), s_l) /\
        process_sources sys fuel config [] (Sources config) s0
        = (Some stats, s_end) /\
        nth_error stats (List.length pre) = Some (next s_pre) /\
        Stat_Source (heap s_end (next s_pre)) = source /\
        Repos (heap s_end (next s_pre))
        = match oerr with None => repos | Some _ => [] end /\
        (Z.of_nat (List.length repos) <= int_max ->
         Skipped (heap s_end (next s_pre)) + Mirrored (heap s_end (next s_pre)) +
         Updated (heap s_end (next s_pre)) + Failed (heap s_end (next s_pre)) +
         FailedMirror (heap s_end (next s_pre)) +
         FailedUpdate (heap s_end (next s_pre))
         = match oerr with
           | None => Z.of_nat (List.length repos)
           | Some _ => 0
           end)).
Proof.
  intros Hend. split; [ | split; [ | split ] ].
  - intros source stat repo s s'.
    destruct (process_repo_step sys config source stat repo s)
      as (tr & o & _ & _ & Hh & _).
    exists o. fold s' in Hh. split; [exact Hh | ].
    intros o'. rewrite Hh. apply bump_changes_only.
  - intros source stat repos s s' H0 Hnn Hle.
    destruct (process_repos_run sys config source stat repos s)
      as (_ & _ & _ & _ & Ht).
    fold s' in Ht. destruct (Ht Hnn) as (_ & Hsum); [lia | ].
    rewrite Hsum, H0. lia.
  - destruct (process_sources_run sys fuel config (Sources config) Hend [] s0)
      as (Hr & _ & _ & Hc).
    destruct (process_sources sys fuel config [] (Sources config) s0)
      as [r s_end].
    cbn [fst snd app] in Hr, Hc. subst r.
    eexists _, s_end. split; [reflexivity | ].
    eapply Forall2_impl; [ | exact Hc].
    intros source q (Hs & Ht). split; [exact Hs | ].
    intros Hle. apply Ht in Hle. exact (proj2 Hle).
  - intros pre source post Hcfg. rewrite Hcfg in Hend |- *.
    destruct (process_sources_cell sys fuel config pre source post s0 Hend)
      as (stats_pre & s_pre & repos & oerr & s_l & stats & s_end
          & Epre & El & Efull & Hnth & Hsrc & Hcell).
    exists stats_pre, s_pre, repos, oerr, s_l, stats, s_end.
    repeat (split; [assumption | ]).
    destruct oerr as [err|].
    + rewrite Hcell. split; reflexivity.
    + destruct Hcell as (Hr & Ht). split; [exact Hr | ].
      intros Hle. exact (proj2 (Ht Hle)).
Qed.

(** The batch of the small system: the first host lists two repositories,
    its cell holds the two and its counters sum to two. *)
Lemma one_outcome_per_repository_witness :
  let sys := Demo.sys Demo.quiet in
  exists stats s_end,
    process_sources sys 3 Demo.config [] (Sources Demo.config) (Demo.start [])
    = (Some stats, s_end) /\
    nth_error stats 0 = Some 0%nat /\
    Repos (heap s_end 0%nat) = [Demo.api; Demo.old] /\
    Skipped (heap s_end 0%nat) + Mirrored (heap s_end 0%nat) +
    Updated (heap s_end 0%nat) + Failed (heap s_end 0%nat) +
    FailedMirror (heap s_end 0%nat) + FailedUpdate (heap s_end 0%nat) = 2.
Proof.
  intros sys.
  assert (Hend : listings_end sys 3 (Sources Demo.config)).
  { intros source [<-|[<-|[]]] s; vm_compute; discriminate. }
  destruct (proj2 (proj2 (proj2 (one_outcome_per_repository sys 3 Demo.config
                                   (Demo.start []) Hend)))
              [] Demo.gitlab [Demo.other] eq_refl)
    as (stats_pre & s_pre & repos & oerr & s_l & stats & s_end
        & Epre & El & Efull & Hnth & _ & Hrepos & Hsum).
  injection Epre as <- <-.
  vm_compute in El. injection El as <- <- _.
  exists stats, s_end.
  split; [exact Efull | ]. split; [exact Hnth | ].
  split; [exact Hrepos | ].
  apply Hsum. vm_compute. discriminate.
Defined.

(** C7.  A page that cannot be fetched makes the listing fail, whatever was
    collected from the pages before it.  A source whose listing fails is
    abandoned: no call is made for it beyond the requests of the listing, its
    cell stays as allocated, with an empty [Repos] and six counters at zero,
    and the loop goes on with the sources after it.  When the listings end,
    the batch runs to its end and logs one line per configured source, in the
    order of the configuration. *)
Theorem listing_failure_abandons_source {W} (sys : Sys W) fuel config pre source
        post (s0 : state W) :
  Sources config = pre ++ source :: post ->
  listings_end sys fuel (Sources config) ->
  (forall rounds collected page (s : state W) pageRepos err s1,
      getRepoPage sys source page 50 s = ((pageRepos, Some err), s1) ->
      getRepo_loop sys (S rounds) source collected page 50 s
      = (Some ([], Some err), s1)) /\
  exists stats_pre s_pre,
    process_sources sys fuel config [] pre s0 = (Some stats_pre, s_pre) /\
    forall repos err s_l,
      getRepo sys fuel source (snd (new (new_Stat source) s_pre))
      = (Some (repos, Some err), s_l) ->
      let cell := next s_pre in
      let s_src := snd (process_source sys fuel config stats_pre source s_pre) in
      fst (process_source sys fuel config stats_pre source s_pre)
      = Some (stats_pre ++ [cell]) /\
      world s_src = world s_l /\
      (exists tr, trace s_src = trace s_pre ++ tr /\
                  forallb is_fetch tr = true) /\
      heap s_src cell = new_Stat source /\
      exists stats s_end,
        process_sources sys fuel config (stats_pre ++ [cell]) post s_src
        = (Some stats, s_end) /\
        process_sources sys fuel config [] (Sources config) s0
        = (Some stats, s_end) /\
        heap s_end cell = new_Stat source /\
        (forall o, counter o (heap s_end cell) = 0) /\
        nth_error stats (List.length pre) = Some cell /\
        List.length stats = List.length (Sources config) /\
        map (fun q => Stat_Source (heap s_end q)) stats = Sources config /\
        fst (batch sys fuel config s0) = Some Returned /\
        out (snd (batch sys fuel config s0))
        = out s_end ++ map (fun q => report_line (heap s_end q)) stats.
Proof.
  intros Hcfg Hend. split.
  { intros rounds collected page s pageRepos err s1 Hpage.
    cbn [getRepo_loop]. unfold bind. now rewrite Hpage. }
  assert (Hend_pre : listings_end sys fuel pre).
  { intros x Hx. apply Hend. rewrite Hcfg. apply in_or_app. now left. }
  assert (Hend_post : listings_end sys fuel post).
  { intros x Hx. apply Hend. rewrite Hcfg. apply in_or_app. right. now right. }
  destruct (process_sources_run sys fuel config pre Hend_pre [] s0)
    as (Hr_pre & Hn_pre & _ & _).
  destruct (process_sources sys fuel config [] pre s0) as [r s_pre] eqn:Epre.
  cbn [fst snd app] in Hr_pre, Hn_pre. subst r.
  eexists _, s_pre. split; [reflexivity | ].
  intros repos err s_l Hl cell s_src.
  pose proof (process_source_listing_fails sys fuel config
                (seq (next s0) (List.length pre)) source s_pre repos err s_l Hl)
    as Hsrc.
  pose proof (getRepo_loop_store sys fuel source [] 1 50
                (snd (new (new_Stat source) s_pre))) as Hst.
  destruct (getRepo_loop_trace sys fuel source [] 1 50
              (snd (new (new_Stat source) s_pre))) as (tr & Htr & Hfetch).
  fold (getRepo sys fuel source (snd (new (new_Stat source) s_pre)))
    in Hst, Htr.
  rewrite Hl in Hst, Htr. cbn [snd new heap next out trace] in Hst, Htr.
  destruct Hst as (Hh_l & Hn_l & _). cbn [heap next] in Hh_l, Hn_l.
  assert (Hcell : heap s_src cell = new_Stat source).
  { unfold s_src, cell. rewrite Hsrc. cbn [snd heap]. rewrite Hh_l.
    cbn beta. now rewrite Nat.eqb_refl. }
  assert (Hnext : next s_src = S cell).
  { unfold s_src, cell. rewrite Hsrc. cbn [snd next]. exact Hn_l. }
  split; [now rewrite Hsrc | ].
  split; [unfold s_src; now rewrite Hsrc | ].
  split; [exists tr; unfold s_src; rewrite Hsrc; cbn [snd trace]; auto | ].
  split; [exact Hcell | ].
  destruct (process_sources_run sys fuel config post Hend_post
              (seq (next s0) (List.length pre) ++ [cell]) s_src)
    as (Hr_post & _ & Hf_post & _).
  destruct (process_sources sys fuel config
              (seq (next s0) (List.length pre) ++ [cell]) post s_src)
    as [r s_end] eqn:Epost.
  cbn [fst snd] in Hr_post, Hf_post. subst r.
  assert (Hfull : process_sources sys fuel config [] (Sources config) s0
                  = (Some ((seq (next s0) (List.length pre) ++ [cell]) ++
                           seq (next s_src) (List.length post)), s_end)).
  { rewrite Hcfg, process_sources_app, Epre. cbn [process_sources].
    unfold bind. fold cell.
    destruct (process_source sys fuel config
                (seq (next s0) (List.length pre)) source s_pre) as [r1 s1]
      eqn:E1.
    injection Hsrc as -> Hs1. fold cell.
    unfold s_src in Epost. cbn [snd] in Epost. exact Epost. }
  destruct (process_sources_run sys fuel config (Sources config) Hend [] s0)
    as (Hr_all & _ & _ & Hc_all).
  rewrite Hfull in Hr_all, Hc_all. cbn [fst snd app] in Hr_all, Hc_all.
  injection Hr_all as Hstats.
  eexists _, s_end. split; [reflexivity | ].
  split; [exact Hfull | ].
  assert (Hend_cell : heap s_end cell = new_Stat source).
  { rewrite Hf_post by lia. exact Hcell. }
  split; [exact Hend_cell | ].
  split; [intros o; rewrite Hend_cell; now destruct o | ].
  split.
  { rewrite <- app_assoc, nth_error_app2; rewrite length_seq; [ | lia].
    rewrite Nat.sub_diag. cbn [app nth_error]. unfold cell.
    now rewrite Hn_pre. }
  split.
  { rewrite Hstats. now rewrite length_seq. }
  split.
  { rewrite Hstats. apply cells_in_order. exact Hc_all. }
  unfold batch, bind. rewrite Hfull.
  pose proof (report_run
                ((seq (next s0) (List.length pre) ++ [cell]) ++
                 seq (next s_src) (List.length post)) s_end) as Hrep.
  cbv zeta in Hrep.
  destruct (report ((seq (next s0) (List.length pre) ++ [cell]) ++
                    seq (next s_src) (List.length post)) s_end) as [[] s_rep].
  cbn [fst snd ret] in *. split; [reflexivity | exact (proj1 Hrep)].
Qed.

(** The first host answers the first page and refuses the second: its two
    repositories are dropped with the listing, and both hosts are reported. *)
Lemma listing_failure_abandons_source_witness :
  let sys := Demo.sys (Demo.with_unreachable [Demo.gitlab_page 2] Demo.quiet) in
  let s0 := Demo.start [] in
  exists stats s_end,
    process_sources sys 3 Demo.config [] (Sources Demo.config) s0
    = (Some stats, s_end) /\
    heap s_end 0%nat = new_Stat Demo.gitlab /\
    List.length stats = 2%nat /\
    fst (batch sys 3 Demo.config s0) = Some Returned /\
    out (snd (batch sys 3 Demo.config s0))
    = out s_end ++ map (fun q => report_line (heap s_end q)) stats.
Proof.
  intros sys s0.
  assert (Hend : listings_end sys 3 (Sources Demo.config)).
  { intros source [<-|[<-|[]]] s; vm_compute; discriminate. }
  destruct (listing_failure_abandons_source sys 3 Demo.config [] Demo.gitlab
              [Demo.other] s0 eq_refl Hend)
    as (_ & stats_pre & s_pre & Epre & Hthen).
  injection Epre as <- <-.
  assert (Hl : exists s_l,
             getRepo sys 3 Demo.gitlab (snd (new (new_Stat Demo.gitlab) s0))
             = (Some ([], Some Demo.ECONNREFUSED), s_l))
    by (vm_compute; eexists; reflexivity).
  destruct Hl as (s_l & Hl).
  destruct (Hthen [] Demo.ECONNREFUSED s_l Hl)
    as (_ & _ & _ & _ & stats & s_end & _ & Hfull & Hcell & _ & _ & Hlen
        & _ & Hret & Hout).
  exists stats, s_end. auto.
Defined.

(** [main] is the batch once the configuration is read and the destination
    directory is there. *)
Lemma main_runs_batch {W} (sys : Sys W) fuel (s : state W) b config :
  os_ReadFile sys "config.json" (world s) = inl b ->
  json_Unmarshal_Config sys b = inl config ->
  (fst (os_MkdirAll sys (Destination config) 493 (world s)) = None \/
   exists err, fst (os_MkdirAll sys (Destination config) 493 (world s))
               = Some err /\ os_IsExist err = true) ->
  exists s1, main sys fuel s = batch sys fuel config s1 /\
             heap s1 = heap s /\ next s1 = next s /\ out s1 = out s.
Proof.
  intros Hread Hjson Hdir.
  unfold main, loadConfig, bind, ReadFile, MkdirAll, ret.
  rewrite Hread, Hjson. cbn [world emit fst snd].
  destruct (os_MkdirAll sys (Destination config) 493 (world s)) as [r w].
  cbn [fst] in Hdir. destruct Hdir as [->|(err & -> & Hex)].
  - eexists. split; [reflexivity | now cbn].
  - rewrite Hex. cbn [negb]. eexists. split; [reflexivity | now cbn].
Qed.

(** The whole program on the small system, twice in a row: the second run
    finds the mirror of the first. *)
Example main_twice :
  let sys := Demo.sys Demo.quiet in
  let run1 := main sys 3 (Demo.start []) in
  let run2 := main sys 3 (Demo.start (world (snd run1))) in
  fst run1 = Some Returned /\
  skipn 4 (out (snd run1))
  = ["Source [gitlab.example.com] stats: repos:2 skipped:1 mirrored:1 updated:0 failed:0 failed_mirror:0 failed_update:0";
     "Source [bot@git.example.org] stats: repos:0 skipped:0 mirrored:0 updated:0 failed:0 failed_mirror:0 failed_update:0"] /\
  skipn 4 (out (snd run2))
  = ["Source [gitlab.example.com] stats: repos:2 skipped:1 mirrored:0 updated:1 failed:0 failed_mirror:0 failed_update:0";
     "Source [bot@git.example.org] stats: repos:0 skipped:0 mirrored:0 updated:0 failed:0 failed_mirror:0 failed_update:0"].
Proof. repeat split; vm_compute; reflexivity. Qed.

(** A host with two pages that are not empty: the listing has no result
    within two rounds and has one within three. *)
Example endless_listing_has_no_result :
  let sys := Demo.sys (Demo.mkScenario Demo.config [] [] [] (inr Demo.EIO) []
                         [(Demo.gitlab_page 1, [Demo.api]);
                          (Demo.gitlab_page 2, [Demo.old])]) in
  fst (getRepo sys 2 Demo.gitlab (Demo.start [])) = None /\
  fst (getRepo sys 3 Demo.gitlab (Demo.start []))
  = Some ([Demo.api; Demo.old], None).
Proof. split; vm_compute; reflexivity. Qed.

(** * The listing *)

Section ListingLemmas.
Context {W : Type} (sys : Sys W).

Lemma getRepo_loop_of_listing source page (s : state W) pages r s' :
  listing sys source 50 page s pages r s' ->
  forall fuel collected,
    (List.length pages < fuel)%nat ->
    getRepo_loop sys fuel source collected page 50 s
    = (Some (match r with
             | None => (collected ++ List.concat pages, None)
             | Some err => ([], Some err)
             end), s').
Proof.
  induction 1 as [page s pageRepos s1 Hp Hlen
                 |page s pageRepos err s1 Hp
                 |page s pageRepos s1 pages r s2 Hp Hlen _ IH];
    intros fuel collected Hfuel;
    (destruct fuel as [|fuel]; [cbn [List.length] in Hfuel; lia | ]);
    cbn [getRepo_loop]; unfold bind; rewrite Hp.
  - rewrite Hlen. cbn [Nat.eqb List.concat]. now rewrite app_nil_r.
  - reflexivity.
  - apply Nat.eqb_neq in Hlen. rewrite Hlen.
    cbn [List.length] in Hfuel.
    rewrite (IH fuel (collected ++ pageRepos)) by lia.
    destruct r; [reflexivity | ].
    cbn [List.concat]. now rewrite app_assoc.
Qed.

Lemma listing_of_getRepo_loop fuel source collected page (s : state W) res s' :
  getRepo_loop sys fuel source collected page 50 s = (Some res, s') ->
  exists pages r,
    listing sys source 50 page s pages r s' /\
    (List.length pages < fuel)%nat /\
    res = match r with
          | None => (collected ++ List.concat pages, None)
          | Some err => ([], Some err)
          end.
Proof.
  revert collected page s.
  induction fuel as [|fuel IH]; intros collected page s;
    cbn [getRepo_loop]; [discriminate | ].
  unfold bind.
  destruct (getRepoPage sys source page 50 s) as [[pageRepos [err|]] s1] eqn:Hp.
  - intros H. injection H as <- <-.
    exists [], (Some err). split; [ | split; [cbn; lia | reflexivity]].
    eapply listing_failed; exact Hp.
  - destruct (Nat.eqb (List.length pageRepos) 0) eqn:Hlen.
    + intros H. injection H as <- <-. apply Nat.eqb_eq in Hlen.
      exists [], None. split; [ | split; [cbn; lia | ]].
      * eapply listing_empty; eassumption.
      * cbn [List.concat]. now rewrite app_nil_r.
    + intros H. apply Nat.eqb_neq in Hlen.
      destruct (IH _ _ _ H) as (pages & r & Hl & Hfuel & Hres).
      exists (pageRepos :: pages), r.
      split; [ | split; [cbn [List.length]; lia | ]].
      * eapply listing_more; eassumption.
      * rewrite Hres. destruct r; [reflexivity | ].
        cbn [List.concat]. now rewrite app_assoc.
Qed.
End ListingLemmas.

(** X1.  [getRepo] has a result within [fuel] rounds exactly when, starting
    at page 1 with 50 records a page, fewer than [fuel] pages in a row come
    back decoded and not empty and the next one is empty or fails.  In the
    first case the result is the records of these pages, in the order of the
    pages, and no error; in the second it is no record at all and the error
    of the failing page.  The final state is the one the last page left. *)
Theorem getRepo_collects_pages {W} (sys : Sys W) fuel source (s : state W)
        res s' :
  getRepo sys fuel source s = (Some res, s') <->
  exists pages r,
    listing sys source 50 1 s pages r s' /\
    (List.length pages < fuel)%nat /\
    res = listed pages r.
Proof.
  unfold getRepo, listed. split.
  - intros H. destruct (listing_of_getRepo_loop sys _ _ _ _ _ _ _ H)
      as (pages & r & Hl & Hfuel & Hres).
    exists pages, r. now rewrite Hres.
  - intros (pages & r & Hl & Hfuel & ->).
    rewrite (getRepo_loop_of_listing sys _ _ _ _ _ _ Hl fuel []) by exact Hfuel.
    reflexivity.
Qed.

(** A host with two pages of one repository each. *)
Lemma getRepo_collects_pages_witness :
  let sys := Demo.sys (Demo.mkScenario Demo.config [] [] [] (inr Demo.EIO) []
                         [(Demo.gitlab_page 1, [Demo.api]);
                          (Demo.gitlab_page 2, [Demo.old])]) in
  exists s' pages,
    listing sys Demo.gitlab 50 1 (Demo.start []) pages None s' /\
    List.concat pages = [Demo.api; Demo.old] /\
    List.length pages = 2%nat.
Proof.
  intros sys.
  assert (H : exists s',
             getRepo sys 3 Demo.gitlab (Demo.start [])
             = (Some ([Demo.api; Demo.old], None), s'))
    by (vm_compute; eexists; reflexivity).
  destruct H as (s' & H).
  destruct (proj1 (getRepo_collects_pages sys 3 Demo.gitlab (Demo.start [])
                     _ s') H) as (pages & r & Hl & Hfuel & Hres).
  destruct r as [err|]; [discriminate Hres | ].
  injection Hres as Hc.
  exists s', pages. split; [exact Hl | split; [now rewrite Hc | ]].
  destruct pages as [|p1 [|p2 [|p3 pages]]]; cbn [List.length] in Hfuel |- *;
    try lia; exfalso.
  - discriminate Hc.
  - inversion Hl as [ | |? ? ? ? ? ? ? Hp Hne Hrest]; subst.
    inversion Hrest as [? ? ? ? Hp2 Hlen2| | ]; subst.
    vm_compute in Hp2. injection Hp2 as <- _. cbn in Hlen2. discriminate.
Defined.

(** X3.  One call of [getRepoPage] returns records or an error, never both,
    and touches neither the store nor the log.  It makes no call at all when
    [http.NewRequest] fails; otherwise it makes exactly one request, a [GET]
    of the URL of the page as [http.NewRequest] built it, with the header
    [Authorization: Bearer <token>] added exactly when the source has a
    token, and the world is what the request left. *)
Theorem getRepoPage_one_request {W} (sys : Sys W) source page perPage
        (s : state W) :
  let r := getRepoPage sys source page perPage s in
  (snd (fst r) <> None -> fst (fst r) = []) /\
  same_store s (snd r) /\
  match http_NewRequest sys "GET" (page_url source page perPage) with
  | inr err =>
    fst r = ([], Some err) /\ trace (snd r) = trace s /\
    world (snd r) = world s
  | inl req =>
    let sent := with_token source req in
    trace (snd r)
    = trace s ++ [EvDo sent (fst (client_Do sys sent (world s)))] /\
    world (snd r) = snd (client_Do sys sent (world s)) /\
    fst r = match fst (client_Do sys sent (world s)) with
            | inr err => ([], Some err)
            | inl resp =>
              match json_Decode_Repos sys resp with
              | inr err => ([], Some err)
              | inl repos => (repos, None)
              end
            end
  end.
Proof.
  cbv zeta. split; [ | split ].
  - unfold getRepoPage.
    destruct (http_NewRequest sys "GET" (page_url source page perPage))
      as [req|err]; [ | reflexivity].
    unfold bind, Do.
    match goal with
    | |- context [client_Do sys ?q ?w] =>
      destruct (client_Do sys q w) as [[resp|err] w']
    end; cbn [fst snd]; [ | reflexivity].
    destruct (json_Decode_Repos sys resp); cbn [fst snd ret];
      [congruence | reflexivity].
  - apply getRepoPage_store.
  - unfold getRepoPage, with_token.
    destruct (http_NewRequest sys "GET" (page_url source page perPage))
      as [req|err]; [ | now cbn].
    unfold bind, Do, emit.
    match goal with
    | |- context [client_Do sys ?q ?w] =>
      destruct (client_Do sys q w) as [[resp|err] w']
    end; cbn [fst snd world trace].
    + destruct (json_Decode_Repos sys resp); now cbn.
    + now cbn.
Qed.

(** * Start and end of [main] *)

Lemma main_stops_at_startup {W} (sys : Sys W) fuel (s : state W) err :
  startup_failure sys (world s) err ->
  let s' := snd (main sys fuel s) in
  fst (main sys fuel s) = Some (Exited 1) /\
  (exists tr, trace s' = trace s ++ tr /\ forallb is_startup tr = true) /\
  (out s' = out s ++ ["Failed to load config: " +++ Error err] \/
   out s' = out s ++
            ["Failed to create destination directory: " +++ Error err]) /\
  heap s' = heap s /\ next s' = next s.
Proof.
  intros Hf. cbv zeta.
  unfold main, loadConfig, log_Fatal, bind, ReadFile, MkdirAll, log_Printf,
    ret, emit.
  destruct Hf as [err Hr|b err Hr Hj|b config err Hr Hj Hm Hex];
    rewrite Hr; cbn [fst snd world trace out heap next].
  - split; [reflexivity | ]. split; [eexists [_]; now cbn | ]. auto.
  - rewrite Hj. cbn [fst snd world trace out heap next].
    split; [reflexivity | ]. split; [eexists [_]; now cbn | ]. auto.
  - rewrite Hj. cbn [fst snd world trace out heap next].
    destruct (os_MkdirAll sys (Destination config) 493 (world s)) as [r w].
    cbn [fst] in Hm. subst r. rewrite Hex.
    cbn [negb fst snd world trace out heap next].
    split; [reflexivity | ].
    split; [eexists [_; _]; rewrite <- app_assoc; now cbn | ]. auto.
Qed.

(** X4.  When the configuration cannot be read or decoded, or the
    destination directory cannot be made for another reason than that it
    exists, [main] logs one line with the error and exits with status 1.  It
    has then made no call beyond reading the file and, in the last case,
    trying to make the directory: no request, no command, no [Stat], no
    walk; and no cell is allocated. *)
Theorem main_startup_failure {W} (sys : Sys W) fuel (s : state W) err :
  startup_failure sys (world s) err ->
  let s' := snd (main sys fuel s) in
  fst (main sys fuel s) = Some (Exited 1) /\
  (exists tr, trace s' = trace s ++ tr /\ forallb is_startup tr = true) /\
  (out s' = out s ++ ["Failed to load config: " +++ Error err] \/
   out s' = out s ++
            ["Failed to create destination directory: " +++ Error err]) /\
  heap s' = heap s /\ next s' = next s.
Proof. intros Hf. now apply main_stops_at_startup. Qed.

(** A configuration file that is not there. *)
Lemma main_startup_failure_witness :
  let sys :=
    mkSys (list string)
          (fun _ _ => inr Demo.ENOENT) (fun _ _ w => (None, w))
          (fun _ _ => inr Demo.ENOENT) (fun _ _ => inr Demo.ENOENT)
          (fun _ _ w => (None, w)) (fun _ w => (inr Demo.ECONNREFUSED, w))
          (fun method url => inl (mkRequest method url []))
          (fun _ => inl Demo.config) (fun _ => inl []) Demo.Join Demo.Match in
  let s := Demo.start [] in
  fst (main sys 3 s) = Some (Exited 1) /\
  out (snd (main sys 3 s))
  = ["Failed to load config: no such file or directory"].
Proof.
  intros sys s.
  destruct (main_startup_failure sys 3 s Demo.ENOENT (SF_read sys _ _ eq_refl))
    as (Hexit & _).
  split; [exact Hexit | reflexivity].
Defined.

(** * What an iteration touches *)

Section IterationLemmas.
Context {W : Type} (sys : Sys W).

Ltac pick_call :=
  first [ left; eexists; reflexivity
        | right; pick_call
        | eexists; reflexivity ].

Ltac all_confined :=
  repeat (apply Forall_cons; [unfold confined; pick_call | ]);
  apply Forall_nil.

Lemma new_mirror_run_confined remote local tr o :
  new_mirror_run sys remote local tr o ->
  Forall (confined sys remote local) tr.
Proof.
  intros H. destruct H;
    repeat match goal with
           | |- context [repack_threshold <? ?x] =>
             destruct (repack_threshold <? x)
           end;
    cbn [app]; all_confined.
Qed.

Lemma existing_mirror_run_confined remote local tr o :
  existing_mirror_run local tr o ->
  Forall (confined sys remote local) tr.
Proof. intros H. destruct H; all_confined. Qed.

Lemma confined_not_fetch remote local ev :
  confined sys remote local ev -> is_fetch ev = false.
Proof.
  intros [(r & ->)|[(r & ->)|[(r & ->)|[(r & ->)|[(r & ->)|[(r & ->)
         |[(r & ->)|(r & ->)]]]]]]]; reflexivity.
Qed.

Lemma confined_remove remote local ev :
  confined sys remote local ev -> is_remove ev = true ->
  exists r, ev = ev_remove local r.
Proof.
  intros [(r & ->)|[(r & ->)|[(r & ->)|[(r & ->)|[(r & ->)|[(r & ->)
         |[(r & ->)|(r & ->)]]]]]]] H;
    try discriminate H.
  now exists r.
Qed.

(** The calls of one iteration, by the four ways it can go. *)
Lemma process_repo_calls config source stat repo (s : state W) :
  let remote := HTTPURLToRepo repo in
  let local := local_path sys config source repo in
  let s' := snd (process_repo sys config source stat repo s) in
  exists tr,
    trace s' = trace s ++ tr /\
    Forall (confined sys remote local) tr /\
    (existsb is_remove tr = true ->
     skip sys source remote = false /\
     exists err, os_Stat sys local (world s) = inr err /\
                 os_IsNotExist err = true).
Proof.
  cbv zeta.
  destruct (skip sys source (HTTPURLToRepo repo)) eqn:Hskip.
  - destruct (process_repo_skipped sys config source stat repo s Hskip)
      as (Ht & _).
    exists []. split; [exact Ht | ]. split; [constructor | discriminate].
  - destruct (os_Stat sys (local_path sys config source repo) (world s))
      as [fi|err] eqn:Hstat.
    + destruct (process_repo_present sys config source stat repo s fi
                  Hskip Hstat) as (tr & o & Hrun & Ht & _).
      exists (EvStat (local_path sys config source repo) (inl fi) :: tr).
      split; [exact Ht | ]. split.
      * constructor; [left; eexists; reflexivity | ].
        eapply existing_mirror_run_confined; exact Hrun.
      * cbn [existsb is_remove orb].
        destruct (existing_mirror_run_calls _ _ _ Hrun) as (_ & Hrm & _).
        rewrite Hrm. discriminate.
    + destruct (os_IsNotExist err) eqn:Hne.
      * destruct (process_repo_absent sys config source stat repo s err
                    Hskip Hstat Hne) as (tr & o & Hrun & Ht & _).
        exists (EvStat (local_path sys config source repo) (inr err) :: tr).
        split; [exact Ht | ]. split.
        -- constructor; [left; eexists; reflexivity | ].
           eapply new_mirror_run_confined; exact Hrun.
        -- intros _. split; [reflexivity | ]. exists err. auto.
      * destruct (process_repo_stat_error sys config source stat repo s err
                    Hskip Hstat Hne) as (Ht & _).
        exists [EvStat (local_path sys config source repo) (inr err)].
        split; [exact Ht | ]. split.
        -- constructor; [left; eexists; reflexivity | constructor].
        -- discriminate.
Qed.

(** The calls of the inner loop: each belongs to one of the repositories. *)
Lemma process_repos_calls config source stat repos (s : state W) :
  exists tr,
    trace (snd (process_repos sys config source stat repos s)) = trace s ++ tr /\
    Forall (fun ev =>
              exists repo,
                In repo repos /\
                confined sys (HTTPURLToRepo repo)
                         (local_path sys config source repo) ev) tr.
Proof.
  revert s. induction repos as [|repo repos IH]; intros s.
  - exists []. cbn. split; [now rewrite app_nil_r | constructor].
  - cbn [process_repos]. unfold bind.
    destruct (process_repo_calls config source stat repo s)
      as (tr1 & Ht1 & Hc1 & _).
    cbv zeta in Ht1, Hc1.
    destruct (process_repo sys config source stat repo s) as [[] s1].
    cbn [snd] in Ht1.
    destruct (IH s1) as (tr2 & Ht2 & Hc2).
    exists (tr1 ++ tr2). split; [now rewrite Ht2, Ht1, app_assoc | ].
    apply Forall_app. split.
    + eapply Forall_impl; [ | exact Hc1].
      intros ev Hev. exists repo. split; [now left | exact Hev].
    + eapply Forall_impl; [ | exact Hc2].
      intros ev (r & Hin & Hev). exists r. split; [now right | exact Hev].
Qed.
End IterationLemmas.

(** X6.  A repository the filter rejects is counted and nothing else: the
    iteration makes no call (not even the [Stat] of its local path), leaves
    the world as it is, logs no line, and does [Skipped++] on the cell of
    its source. *)
Theorem skipped_repository_makes_no_call {W} (sys : Sys W) config source stat
        repo (s : state W) :
  skip sys source (HTTPURLToRepo repo) = true ->
  let s' := snd (process_repo sys config source stat repo s) in
  trace s' = trace s /\ world s' = world s /\ out s' = out s /\
  heap s' stat = set_Skipped (heap s stat) (incr (Skipped (heap s stat))) /\
  (forall q, q <> stat -> heap s' q = heap s q).
Proof.
  intros Hskip. cbv zeta. unfold process_repo. rewrite Hskip.
  unfold inc_Skipped, bind, load, store. cbn [snd trace world out heap].
  rewrite Nat.eqb_refl. repeat split.
  intros q Hq. apply Nat.eqb_neq in Hq. now rewrite Hq.
Qed.

Lemma skipped_repository_makes_no_call_witness :
  let sys := Demo.sys Demo.quiet in
  let s := Demo.in_loop Demo.gitlab [] in
  let s' := snd (process_repo sys Demo.config Demo.gitlab 0%nat Demo.old s) in
  trace s' = [] /\ world s' = [] /\ out s' = [] /\
  Skipped (heap s' 0%nat) = 1.
Proof.
  intros sys s s'.
  destruct (skipped_repository_makes_no_call sys Demo.config Demo.gitlab
              0%nat Demo.old s eq_refl) as (Ht & Hw & Ho & Hh & _).
  fold s' in Ht, Hw, Ho, Hh. rewrite Ht, Hw, Ho, Hh. repeat split.
Defined.

(** X7.  Every call an iteration makes concerns the local path of its own
    repository, [<destination>/<domain>/<path-with-namespace>.git]: the
    [Stat] of that path, the walk of its [objects] directory, the clone of
    the repository's URL into it, and the commands [git -C], [touch] and
    [rm -rf] on it.  The same holds along the whole inner loop: each call
    belongs to one of the repositories of the list. *)
Theorem calls_confined_to_local_path {W} (sys : Sys W) config source stat :
  (forall repo (s : state W),
      exists tr,
        trace (snd (process_repo sys config source stat repo s))
        = trace s ++ tr /\
        Forall (confined sys (HTTPURLToRepo repo)
                         (local_path sys config source repo)) tr) /\
  (forall repos (s : state W),
      exists tr,
        trace (snd (process_repos sys config source stat repos s))
        = trace s ++ tr /\
        Forall (fun ev =>
                  exists repo,
                    In repo repos /\
                    confined sys (HTTPURLToRepo repo)
                             (local_path sys config source repo) ev) tr).
Proof.
  split.
  - intros repo s.
    destruct (process_repo_calls sys config source stat repo s)
      as (tr & Ht & Hc & _).
    exists tr. auto.
  - intros repos s. apply process_repos_calls.
Qed.

Lemma calls_confined_to_local_path_witness :
  let sys := Demo.sys (Demo.with_failing ["remote"] Demo.quiet) in
  exists tr,
    trace (snd (process_repos sys Demo.config Demo.gitlab 0%nat
                              [Demo.api; Demo.old]
                              (Demo.in_loop Demo.gitlab [])))
    = [] ++ tr /\
    Forall (fun ev =>
              exists repo,
                In repo [Demo.api; Demo.old] /\
                confined sys (HTTPURLToRepo repo)
                         (local_path sys Demo.config Demo.gitlab repo) ev) tr.
Proof.
  intros sys.
  exact (proj2 (calls_confined_to_local_path sys Demo.config Demo.gitlab 0%nat)
               [Demo.api; Demo.old] (Demo.in_loop Demo.gitlab [])).
Defined.

(** X8.  [rm -rf] is run only in an iteration whose [Stat] of the local path
    reported, at its start, that nothing is there, on a repository the filter
    lets through; and its one argument after [-rf] is that local path.  A
    path at which [Stat] found something is never removed. *)
Theorem remove_only_after_not_found {W} (sys : Sys W) config source stat repo
        (s : state W) :
  let local := local_path sys config source repo in
  let s' := snd (process_repo sys config source stat repo s) in
  exists tr,
    trace s' = trace s ++ tr /\
    (forall ev, In ev tr -> is_remove ev = true ->
                exists r, ev = ev_remove local r) /\
    (existsb is_remove tr = true ->
     skip sys source (HTTPURLToRepo repo) = false /\
     exists err, os_Stat sys local (world s) = inr err /\
                 os_IsNotExist err = true) /\
    (forall fi, os_Stat sys local (world s) = inl fi ->
                existsb is_remove tr = false).
Proof.
  cbv zeta.
  destruct (process_repo_calls sys config source stat repo s)
    as (tr & Ht & Hc & Hrm).
  exists tr. split; [exact Ht | ]. split; [ | split; [exact Hrm | ]].
  - intros ev Hin Hev. rewrite Forall_forall in Hc.
    eapply confined_remove; [apply Hc; exact Hin | exact Hev].
  - intros fi Hstat. destruct (existsb is_remove tr) eqn:E; [ | reflexivity].
    destruct (Hrm eq_refl) as (_ & err & Herr & _).
    cbv zeta in Herr. rewrite Hstat in Herr. discriminate.
Qed.

(** An update that fails on a mirror that is there: nothing is removed. *)
Lemma remove_only_after_not_found_witness :
  let sys := Demo.sys (Demo.with_failing ["remote"] Demo.quiet) in
  let s := Demo.in_loop Demo.gitlab [Demo.api_local] in
  let s' := snd (process_repo sys Demo.config Demo.gitlab 0%nat Demo.api s) in
  existsb is_remove (trace s') = false /\
  world s' = [Demo.api_local] /\
  FailedUpdate (heap s' 0%nat) = 1.
Proof.
  intros sys s s'.
  destruct (remove_only_after_not_found sys Demo.config Demo.gitlab 0%nat
              Demo.api s) as (tr & Ht & _ & _ & Hkeep).
  fold s' in Ht. rewrite Ht. cbn [trace s Demo.in_loop app].
  split; [exact (Hkeep _ eq_refl) | split; reflexivity].
Defined.

(** * Order and coverage of the loops *)

Section CoverageLemmas.
Context {W : Type} (sys : Sys W).

Lemma stat_names_app tr1 tr2 :
  stat_names (tr1 ++ tr2) = stat_names tr1 ++ stat_names tr2.
Proof.
  induction tr1 as [|ev tr1 IH]; [reflexivity | ].
  destruct ev; cbn [app stat_names]; now rewrite IH.
Qed.

Lemma new_mirror_run_no_stat remote local tr o :
  new_mirror_run sys remote local tr o -> stat_names tr = [].
Proof.
  intros H. destruct H;
    repeat match goal with
           | |- context [repack_threshold <? ?x] =>
             destruct (repack_threshold <? x)
           end;
    reflexivity.
Qed.

Lemma existing_mirror_run_no_stat local tr o :
  existing_mirror_run local tr o -> stat_names tr = [].
Proof. intros H. destruct H; reflexivity. Qed.

Lemma process_repo_stats config source stat repo (s : state W) :
  exists tr,
    trace (snd (process_repo sys config source stat repo s)) = trace s ++ tr /\
    stat_names tr
    = if skip sys source (HTTPURLToRepo repo) then []
      else [local_path sys config source repo].
Proof.
  destruct (skip sys source (HTTPURLToRepo repo)) eqn:Hskip.
  - destruct (process_repo_skipped sys config source stat repo s Hskip)
      as (Ht & _).
    exists []. auto.
  - destruct (os_Stat sys (local_path sys config source repo) (world s))
      as [fi|err] eqn:Hstat.
    + destruct (process_repo_present sys config source stat repo s fi
                  Hskip Hstat) as (tr & o & Hrun & Ht & _).
      eexists. split; [exact Ht | ]. cbn [stat_names].
      now rewrite (existing_mirror_run_no_stat _ _ _ Hrun).
    + destruct (os_IsNotExist err) eqn:Hne.
      * destruct (process_repo_absent sys config source stat repo s err
                    Hskip Hstat Hne) as (tr & o & Hrun & Ht & _).
        eexists. split; [exact Ht | ]. cbn [stat_names].
        now rewrite (new_mirror_run_no_stat _ _ _ _ Hrun).
      * destruct (process_repo_stat_error sys config source stat repo s err
                    Hskip Hstat Hne) as (Ht & _).
        eexists. split; [exact Ht | reflexivity].
Qed.

Lemma process_repos_no_fetch config source stat repos (s : state W) :
  exists tr,
    trace (snd (process_repos sys config source stat repos s)) = trace s ++ tr /\
    forallb (fun ev => negb (is_fetch ev)) tr = true.
Proof.
  destruct (process_repos_calls sys config source stat repos s)
    as (tr & Ht & Hc).
  exists tr. split; [exact Ht | ].
  apply forallb_forall. intros ev Hin. rewrite Forall_forall in Hc.
  destruct (Hc ev Hin) as (repo & _ & Hev).
  now rewrite (confined_not_fetch sys _ _ _ Hev).
Qed.
End CoverageLemmas.

(** X9.  The inner loop goes through the whole list whatever happens to the
    repositories on the way: the paths it calls [os.Stat] on are the local
    paths of the repositories the filter lets through, each once, in the
    order of the listing. *)
Theorem every_unfiltered_repository_is_attempted {W} (sys : Sys W) config source
        stat repos (s : state W) :
  exists tr,
    trace (snd (process_repos sys config source stat repos s)) = trace s ++ tr /\
    stat_names tr
    = map (local_path sys config source)
          (filter (fun repo => negb (skip sys source (HTTPURLToRepo repo)))
                  repos).
Proof.
  revert s. induction repos as [|repo repos IH]; intros s.
  - exists []. cbn. now rewrite app_nil_r.
  - cbn [process_repos]. unfold bind.
    destruct (process_repo_stats sys config source stat repo s)
      as (tr1 & Ht1 & Hs1).
    destruct (process_repo sys config source stat repo s) as [[] s1].
    cbn [snd] in Ht1.
    destruct (IH s1) as (tr2 & Ht2 & Hs2).
    exists (tr1 ++ tr2). split; [now rewrite Ht2, Ht1, app_assoc | ].
    rewrite stat_names_app, Hs1, Hs2. cbn [filter].
    destruct (skip sys source (HTTPURLToRepo repo)); reflexivity.
Qed.

(** Every command fails; both repositories of the listing are still looked
    at, the excluded one apart. *)
Example every_unfiltered_repository_is_attempted_example :
  let sys := Demo.sys (Demo.with_failing ["git"; "rm"] Demo.quiet) in
  let extra := mkRepo 3 "web" "team / web" "web" "team/web"
                      "2021-01-01T00:00:00Z"
                      "https://gitlab.example.com/team/web.git" in
  let s' := snd (process_repos sys Demo.config Demo.gitlab 0%nat
                               [Demo.api; Demo.old; extra]
                               (Demo.in_loop Demo.gitlab [])) in
  stat_names (trace s')
  = ["/srv/mirror/gitlab.example.com/team/api.git";
     "/srv/mirror/gitlab.example.com/team/web.git"] /\
  FailedMirror (heap s' 0%nat) = 2 /\ Skipped (heap s' 0%nat) = 1.
Proof. repeat split; vm_compute; reflexivity. Qed.

(** X10.  For one source, all requests of the listing come before any call
    on a repository, and calls on repositories are made only when the whole
    listing went through: the calls of [process_source] are requests
    followed by calls that are not requests, and the second part is empty
    unless [getRepo] returned without error. *)
Theorem listing_precedes_processing {W} (sys : Sys W) fuel config stats source
        (s : state W) :
  let s' := snd (process_source sys fuel config stats source s) in
  exists tr_listing tr_repos,
    trace s' = trace s ++ tr_listing ++ tr_repos /\
    forallb is_fetch tr_listing = true /\
    forallb (fun ev => negb (is_fetch ev)) tr_repos = true /\
    (tr_repos <> [] ->
     exists repos,
       fst (getRepo sys fuel source (snd (new (new_Stat source) s)))
       = Some (repos, None)).
Proof.
  cbv zeta. unfold process_source, bind, new, load, store, log_Printf, ret.
  cbn [fst snd heap next out world trace].
  match goal with
  | |- context [getRepo sys fuel source ?st] =>
    destruct (getRepo_loop_trace sys fuel source [] 1 50 st)
      as (tr1 & Ht1 & Hf1);
    fold (getRepo sys fuel source st) in Ht1;
    destruct (getRepo sys fuel source st) as [r s2]
  end.
  cbn [fst snd trace] in *.
  destruct r as [[repos [err|]]|]; cbn [fst snd trace].
  - exists tr1, []. rewrite app_nil_r. repeat split; auto. congruence.
  - match goal with
    | |- context [process_repos sys config source ?a repos ?st] =>
      destruct (process_repos_no_fetch sys config source a repos st)
        as (tr2 & Ht2 & Hf2);
      destruct (process_repos sys config source a repos st) as [[] s3]
    end.
    cbn [fst snd trace] in *.
    exists tr1, tr2. rewrite Ht2, Ht1, app_assoc.
    repeat split; auto. intros _. now exists repos.
  - exists tr1, []. rewrite app_nil_r. repeat split; auto. congruence.
Qed.

(** The second page of the first host cannot be fetched: two requests, and
    not one call for the repositories of its first page. *)
Example listing_precedes_processing_example :
  let sys := Demo.sys (Demo.with_unreachable [Demo.gitlab_page 2] Demo.quiet) in
  let s' := snd (process_source sys 3 Demo.config [] Demo.gitlab
                                (Demo.start [])) in
  List.length (trace s') = 2%nat /\ forallb is_fetch (trace s') = true /\
  world s' = [].
Proof. repeat split; vm_compute; reflexivity. Qed.

(** * Patterns and names *)

Lemma skip_true_iff {W} (sys : Sys W) source remote :
  skip sys source remote = true <->
  pattern_hit sys (Exclude source) remote \/
  (Include source <> [] /\ ~ pattern_hit sys (Include source) remote).
Proof.
  unfold skip.
  destruct (matches sys (Exclude source) remote) eqn:Eex.
  - apply matches_spec in Eex. split; auto.
  - apply matches_false_spec in Eex.
    destruct (Include source) as [|v l] eqn:Einc.
    + cbn [List.length Z.of_nat Z.ltb Z.compare andb].
      split; [discriminate | ].
      intros [H|[H _]]; [contradiction | congruence].
    + assert (Hlen : (0 <? Z.of_nat (List.length (v :: l))) = true)
        by (apply Z.ltb_lt; cbn [List.length]; lia).
      rewrite Hlen. cbn [andb].
      destruct (matches sys (v :: l) remote) eqn:Ein; cbn [negb].
      * apply matches_spec in Ein. split; [discriminate | ].
        intros [H|[_ H]]; contradiction.
      * apply matches_false_spec in Ein. split; [ | reflexivity].
        intros _. right. split; [discriminate | exact Ein].
Qed.

(** X11.  The patterns of a list count as a set: [matches] on two lists put
    together is the disjunction of [matches] on each, and two lists with the
    same patterns, in whatever order and however often repeated, match the
    same URLs.  Hence more exclude patterns can only skip more, and more
    include patterns, on a list that was not empty, can only skip less. *)
Theorem patterns_count_as_a_set {W} (sys : Sys W) :
  (forall s1 s2 e,
      matches sys (s1 ++ s2) e = matches sys s1 e || matches sys s2 e) /\
  (forall s1 s2 e,
      (forall v, In v s1 <-> In v s2) ->
      matches sys s1 e = matches sys s2 e) /\
  (forall a b remote,
      Include a = Include b ->
      (forall v, In v (Exclude a) -> In v (Exclude b)) ->
      skip sys a remote = true -> skip sys b remote = true) /\
  (forall a b remote,
      Exclude a = Exclude b ->
      Include a <> [] ->
      (forall v, In v (Include a) -> In v (Include b)) ->
      skip sys b remote = true -> skip sys a remote = true).
Proof.
  assert (Hmono : forall s1 s2 e,
             (forall v, In v s1 -> In v s2) ->
             pattern_hit sys s1 e -> pattern_hit sys s2 e).
  { intros s1 s2 e Hsub (v & Hin & Hv). exists v. auto. }
  split; [ | split; [ | split ] ].
  - intros s1 s2 e.
    destruct (matches sys (s1 ++ s2) e) eqn:E.
    + apply matches_spec in E. destruct E as (v & Hin & Hv).
      symmetry. apply orb_true_iff. apply in_app_or in Hin.
      destruct Hin as [Hin|Hin]; [left | right]; apply matches_spec;
        exists v; auto.
    + symmetry. apply orb_false_iff.
      split; apply matches_false_spec; intros Hhit;
        apply matches_false_spec in E; apply E;
        (eapply Hmono; [ | exact Hhit]); intros v Hv; apply in_or_app; auto.
  - intros s1 s2 e Hsame.
    destruct (matches sys s2 e) eqn:E.
    + apply matches_spec. apply matches_spec in E.
      eapply Hmono; [ | exact E]. intros v. apply Hsame.
    + apply matches_false_spec. apply matches_false_spec in E.
      intros Hhit. apply E. eapply Hmono; [ | exact Hhit].
      intros v. apply Hsame.
  - intros a b remote Hinc Hsub Hskip.
    apply skip_true_iff in Hskip.
    apply skip_true_iff.
    destruct Hskip as [Hex|[Hne Hno]].
    + left. eapply Hmono; eassumption.
    + right. rewrite <- Hinc. auto.
  - intros a b remote Hexc Hne Hsub Hskip.
    apply skip_true_iff in Hskip.
    apply skip_true_iff.
    destruct Hskip as [Hex|[_ Hno]].
    + left. now rewrite Hexc.
    + right. split; [exact Hne | ].
      intros Hhit. apply Hno. eapply Hmono; eassumption.
Qed.

Lemma patterns_count_as_a_set_witness :
  let sys := Demo.sys Demo.quiet in
  let url := "https://gitlab.example.com/team/api.git" in
  matches sys ["https://*/team/*"; "*.org"; "https://*/team/*"] url
  = matches sys ["*.org"; "https://*/team/*"] url.
Proof.
  intros sys url.
  apply (proj1 (proj2 (patterns_count_as_a_set sys))).
  intros v. cbn [In]. tauto.
Defined.

(** ** Suffixes *)

Lemma substring_from_start b : substring 0 (String.length b) b = b.
Proof. induction b as [|c b IH]; cbn; [reflexivity | now rewrite IH]. Qed.

Lemma substring_skips_prefix a b :
  substring (String.length a) (String.length b) (a +++ b) = b.
Proof.
  induction a as [|c a IH]; cbn [String.length String.append substring].
  - apply substring_from_start.
  - exact IH.
Qed.

Lemma length_append a b :
  String.length (a +++ b) = (String.length a + String.length b)%nat.
Proof. induction a as [|c a IH]; cbn; [reflexivity | now rewrite IH]. Qed.

Lemma substring_split s n :
  (n <= String.length s)%nat ->
  s = substring 0 n s +++ substring n (String.length s - n) s.
Proof.
  revert n. induction s as [|c s IH]; intros n Hn.
  - destruct n; [reflexivity | cbn in Hn; lia].
  - destruct n as [|n].
    + cbn [substring String.append Nat.sub String.length].
      now rewrite substring_from_start.
    + cbn [String.length] in Hn.
      cbn [substring String.append String.length Nat.sub].
      f_equal. apply IH. lia.
Qed.

(** [strings.HasSuffix]: the answer is [true] exactly when the string is some
    string followed by the suffix. *)
Lemma HasSuffix_spec s suffix :
  HasSuffix s suffix = true <-> exists p, s = p +++ suffix.
Proof.
  unfold HasSuffix. split.
  - intros H. apply andb_prop in H as [Hlen Heq].
    apply Nat.leb_le in Hlen. apply String.eqb_eq in Heq.
    exists (substring 0 (String.length s - String.length suffix) s).
    pose proof (substring_split s (String.length s - String.length suffix)
                  ltac:(lia)) as Hsp.
    replace (String.length s - (String.length s - String.length suffix))%nat
      with (String.length suffix) in Hsp by lia.
    rewrite Heq in Hsp. exact Hsp.
  - intros (p & ->). rewrite length_append.
    apply andb_true_intro. split.
    + apply Nat.leb_le. lia.
    + replace (String.length p + String.length suffix - String.length suffix)%nat
        with (String.length p) by lia.
      rewrite substring_skips_prefix. apply String.eqb_refl.
Qed.

Lemma is_pack_spec d :
  is_pack d = true <-> exists p, Name d = p +++ ".pack".
Proof. unfold is_pack. apply HasSuffix_spec. Qed.

(** X12.  The closure of [objects], on an entry that is not a directory,
    counts it and then looks at its name: when the name is some string, the
    empty one included, followed by [.pack], it asks for [Info()] and either
    returns its error or raises the largest size to the size of the file;
    for every other name it returns at once, whatever [Info()] would say.
    So, for a directory that holds one such entry, [objects] returns the
    size of the entry (or 0 when it is negative) exactly for the names of
    that form, and 0 for all others. *)
Theorem objects_fn_tests_pack_suffix {W} (sys : Sys W) path d largestsize count :
  IsDir d = false ->
  ((exists p, Name d = p +++ ".pack") ->
   objects_fn path (Some d) None (largestsize, count)
   = match Info d with
     | inl fi => ((Z.max largestsize (Size fi), incr count), None)
     | inr err => ((largestsize, incr count), Some err)
     end) /\
  (~ (exists p, Name d = p +++ ".pack") ->
   objects_fn path (Some d) None (largestsize, count)
   = ((largestsize, incr count), None)) /\
  (forall top below readErr,
      IsDir top = true ->
      ((exists p, Name d = p +++ ".pack") ->
       objects_walk sys path (inl (Node top [Node d below readErr] None))
       = match Info d with
         | inl fi => (Z.max 0 (Size fi), 1, None)
         | inr err => (0, 1, Some err)
         end) /\
      (~ (exists p, Name d = p +++ ".pack") ->
       objects_walk sys path (inl (Node top [Node d below readErr] None))
       = (0, 1, None))).
Proof.
  intros Hfile.
  assert (Hyes : (exists p, Name d = p +++ ".pack") -> is_pack d = true)
    by apply is_pack_spec.
  assert (Hno : ~ (exists p, Name d = p +++ ".pack") -> is_pack d = false).
  { intros H. destruct (is_pack d) eqn:E; [ | reflexivity].
    exfalso. apply H. now apply is_pack_spec. }
  split; [ | split ].
  - intros H. rewrite objects_fn_file by exact Hfile. now rewrite (Hyes H).
  - intros H. rewrite objects_fn_file by exact Hfile. now rewrite (Hno H).
  - intros top below readErr Htop.
    unfold objects_walk. cbn [WalkDir walkDir entry].
    rewrite (objects_fn_dir _ _ _ Htop), Htop. cbn [negb].
    rewrite objects_fn_file by exact Hfile. rewrite Hfile. cbn [negb].
    split; intros H.
    + rewrite (Hyes H). destruct (Info d); reflexivity.
    + rewrite (Hno H). reflexivity.
Qed.

(** A pack and its index. *)
Lemma objects_fn_tests_pack_suffix_witness :
  let sys := Demo.sys Demo.quiet in
  let pack := mkDirEntry "pack-1f0e.pack" false (inl (mkFileInfo 2048 false)) in
  let idx := mkDirEntry "pack-1f0e.idx" false (inl (mkFileInfo 4096 false)) in
  objects_fn "objects/pack/pack-1f0e.pack" (Some pack) None (0, 0)
  = ((2048, 1), None) /\
  objects_fn "objects/pack/pack-1f0e.idx" (Some idx) None (0, 0)
  = ((0, 1), None).
Proof.
  intros sys pack idx. split.
  - apply (proj1 (objects_fn_tests_pack_suffix sys _ pack 0 0 eq_refl)).
    exists "pack-1f0e". reflexivity.
  - apply (proj1 (proj2 (objects_fn_tests_pack_suffix sys _ idx 0 0 eq_refl))).
    intros H. apply is_pack_spec in H. discriminate H.
Defined.

Example is_pack_example :
  is_pack (mkDirEntry ".pack" false (inr Demo.EIO)) = true /\
  is_pack (mkDirEntry "pack-1f0e.pack" false (inr Demo.EIO)) = true /\
  is_pack (mkDirEntry "pack-1f0e.PACK" false (inr Demo.EIO)) = false.
Proof. repeat split. Qed.

(** The local path of a repository always ends in [.git], whatever the
    destination, the domain and the path with namespace are: [filepath.Join]
    is applied to the three of them and [.git] is put after its result. *)
Lemma local_path_ends_in_git {W} (sys : Sys W) config source repo :
  HasSuffix (local_path sys config source repo) ".git" = true /\
  local_path sys config source repo
  = filepath_Join sys [Destination config; Domain source;
                       PathWithNamespace repo] +++ ".git".
Proof.
  split; [ | reflexivity].
  apply HasSuffix_spec. eexists. reflexivity.
Qed.

(** * Repack and the files of the object store *)

Section RepackLemmas.
Context {W : Type} (sys : Sys W).

Lemma objects_walk_ok root r largest count :
  objects_walk sys root r = (largest, count, None) ->
  exists n, r = inl n /\ first_error n = None /\
            largest = fold_right Z.max 0 (pack_sizes n).
Proof.
  destruct r as [n|err]; [ | discriminate].
  intros H. exists n. split; [reflexivity | ].
  pose proof (walkDir_objects (filepath_Join sys) n root 0 0) as Hw.
  unfold objects_walk in H. cbn [WalkDir] in H.
  destruct (first_error n) as [err|].
  - destruct Hw as (l & c & Hw). rewrite Hw in H. discriminate.
  - split; [reflexivity | ]. rewrite Hw in H. injection H as <- _.
    apply fold_left_max_right.
Qed.

Lemma max_above_iff (sizes : list Z) bound :
  0 <= bound ->
  bound < fold_right Z.max 0 sizes <-> exists z, In z sizes /\ bound < z.
Proof.
  intros Hb. induction sizes as [|z sizes IH]; cbn [fold_right].
  - split; [lia | intros (z & [] & _)].
  - split.
    + intros H. destruct (Z.max_spec z (fold_right Z.max 0 sizes))
        as [[_ Hm]|[_ Hm]]; rewrite Hm in H.
      * apply IH in H. destruct H as (y & Hin & Hy). exists y.
        split; [now right | exact Hy].
      * exists z. split; [now left | exact H].
    + intros (y & [<-|Hin] & Hy).
      * lia.
      * assert (bound < fold_right Z.max 0 sizes)
          by (apply IH; exists y; auto).
        lia.
Qed.

Lemma objects_walk_clean root n :
  first_error n = None ->
  objects_walk sys root (inl n)
  = (fold_right Z.max 0 (pack_sizes n),
     wrap64 (Z.of_nat (List.length (files n))), None).
Proof.
  intros Hok.
  pose proof (walkDir_objects (filepath_Join sys) n root 0 0) as Hw.
  rewrite Hok in Hw. unfold objects_walk. cbn [WalkDir]. rewrite Hw.
  now rewrite fold_left_max_right, iter_incr.
Qed.

Lemma large_pack_iff n :
  repack_threshold < fold_right Z.max 0 (pack_sizes n) <-> has_large_pack n.
Proof.
  rewrite max_above_iff by (unfold repack_threshold; lia).
  unfold has_large_pack, pack_sizes. split.
  - intros (z & Hin & Hz). apply in_map_iff in Hin.
    destruct Hin as (d & <- & Hd). apply filter_In in Hd.
    exists d. tauto.
  - intros (d & Hin & Hp & Hz). exists (pack_size d).
    split; [ | exact Hz]. apply in_map. apply filter_In. auto.
Qed.

Lemma inspected_walked tr root_of :
  (forall root r, In (EvWalkDir root r) tr -> root = root_of) ->
  inspected sys tr
  = match walked tr with
    | Some r => Some (objects_walk sys root_of r)
    | None => None
    end.
Proof.
  induction tr as [|ev tr IH]; intros Hroot; [reflexivity | ].
  destruct ev; cbn [inspected walked];
    try (apply IH; intros root r0 Hin; apply (Hroot root r0); now right).
  rewrite (Hroot root r); [reflexivity | now left].
Qed.

Lemma new_mirror_run_walk_root remote local tr o :
  new_mirror_run sys remote local tr o ->
  forall root r, In (EvWalkDir root r) tr ->
                 root = filepath_Join sys [local; "objects"].
Proof.
  intros H root r Hin.
  pose proof (new_mirror_run_confined sys _ _ _ _ H) as Hc.
  rewrite Forall_forall in Hc. specialize (Hc _ Hin).
  destruct Hc as [(x & E)|[(x & E)|[(x & E)|[(x & E)|[(x & E)|[(x & E)
                 |[(x & E)|(x & E)]]]]]]]; try discriminate E.
  unfold ev_objects in E. now injection E as -> _.
Qed.
End RepackLemmas.

(** X13.  In a new-mirror sequence repack is called exactly when the walk
    after the clone went through without error and saw a file, not a
    directory, whose name ends in [.pack] and whose size is above
    [95*1024*1024].  A fresh mirror without such a file, an empty one for
    instance, is never repacked. *)
Theorem repack_needs_large_pack_file {W} (sys : Sys W) remote local tr o :
  new_mirror_run sys remote local tr o ->
  existsb is_repack tr = true <->
  exists n, walked tr = Some (inl n) /\ first_error n = None /\
            has_large_pack n.
Proof.
  intros Hrun.
  rewrite (new_mirror_run_repack sys _ _ _ _ Hrun).
  rewrite (inspected_walked sys tr _ (new_mirror_run_walk_root sys _ _ _ _ Hrun)).
  split.
  - intros (largest & count & Hi & Hlt).
    destruct (walked tr) as [r|]; [ | discriminate].
    injection Hi as Hi.
    destruct (objects_walk_ok sys _ _ _ _ Hi) as (n & -> & Hok & ->).
    exists n. split; [reflexivity | ]. split; [exact Hok | ].
    now apply large_pack_iff.
  - intros (n & -> & Hok & Hlarge).
    eexists _, _. split; [now rewrite (objects_walk_clean sys _ n Hok) | ].
    now apply large_pack_iff.
Qed.

(** A fresh clone with a pack one byte above the bound. *)
Lemma repack_needs_large_pack_file_witness :
  let sys := Demo.sys Demo.quiet in
  let remote := HTTPURLToRepo Demo.api in
  let local := Demo.api_local in
  let t := inl (Demo.store_with_pack (95 * 1024 * 1024 + 1)) in
  exists n,
    walked [ev_clone remote local None; ev_disablegc local None;
            ev_touch Demo.Join local None; ev_objects Demo.Join local t;
            ev_repack local None; ev_update local None]
    = Some (inl n) /\
    first_error n = None /\ has_large_pack n.
Proof.
  intros sys remote local t.
  pose proof (NM_succeeds sys remote local t (95 * 1024 * 1024 + 1) 3 eq_refl)
    as Hrun.
  apply (proj1 (repack_needs_large_pack_file sys _ _ _ _ Hrun)).
  reflexivity.
Defined.

(** * The calls of the whole program *)

Section WholeLemmas.
Context {W : Type} (sys : Sys W).
















End WholeLemmas.


